(** * blobstore: segmented BLOB storage on a document collection

    A shallow embedding of [blobstore.go] (package [blobstore]) together
    with the properties of its segmentation protocol.

    The MongoDB collection behind a [Store] is modelled as the list of the
    documents it holds, a log of the round trips made to it and a script
    that says which of the coming round trips fail.  Unsigned 64-bit fields
    are integers with their wrap-around written out. *)

From Stdlib Require Import ZArith Strings.Byte.
From stdpp Require Import base decidable list sorting strings.

Local Open Scope Z_scope.

(** ** Machine integers *)

Definition uint64 (z : Z) : Z := z mod 2 ^ 64.
Definition int64 (z : Z) : Z := (z + 2 ^ 63) mod 2 ^ 64 - 2 ^ 63.
Definition MaxInt64 : Z := 2 ^ 63 - 1.

(** [len] of a Go slice, an [int]. *)
Definition len {A} (l : list A) : Z := Z.of_nat (length l).

(** ** Errors *)

(** [io.EOF], [io.ErrUnexpectedEOF], [io.ErrShortBuffer], the package's
    [ErrNotFound], any other error value that wraps nothing (a driver or
    input failure), and an error that wraps another one, as
    [fmt.Errorf("...: %w", err)] builds it; an error that answers for
    another one through an [Is] method counts as wrapping it. *)
Inductive error :=
| EOF
| ErrUnexpectedEOF
| ErrShortBuffer
| ErrNotFound
| ErrOther (msg : string)
| ErrWrap (msg : string) (err : error).

Global Instance error_eq_dec : EqDecision error.
Proof. solve_decision. Defined.

(** The chain of [Unwrap] followed down to [target]: the error is the
    sentinel, compared with [==], or wraps it at some depth. *)
Fixpoint wraps (err target : error) : bool :=
  if decide (err = target) then true
  else
    match err with
    | ErrWrap _ err' => wraps err' target
    | _ => false
    end.

(** [errors.Is(err, target)] for a sentinel [target]; [nil] is no error. *)
Definition errors_Is (err : option error) (target : error) : bool :=
  match err with
  | Some e => wraps e target
  | None => false
  end.
Global Arguments errors_Is : simpl never.

(** ** Segments *)

Record blobSegment := mkSegment {
  ID : string;
  Seq : Z;
  Data : list byte;
  Start : Z;
  N : Z
}.

(** 2MB chunks: the value the package variable is initialised with. *)
Definition DefaultChunkSize : Z := 2048 * 1024.

(** ** The backing collection *)

(** The round trips the package makes to the collection. *)
Inductive StoreOp :=
| CreateIndex
| ReplaceOne (blobId : string) (seq : Z) (doc : blobSegment)
| DeleteIn (blobIDs : list string)
| DeleteGte (blobId : string) (seq : Z)
| Find (blobId : string) (ascending : bool).

(** The documents, the round trips made so far, and for each coming round
    trip whether the driver fails it, with which message. *)
Record collection := mkCollection {
  docs : list blobSegment;
  oplog : list StoreOp;
  faults : list (option string)
}.

Definition has_key (blobId : string) (seq : Z) (d : blobSegment) : Prop :=
  ID d = blobId ∧ Seq d = seq.

Global Instance has_key_dec blobId seq d : Decision (has_key blobId seq d).
Proof. unfold has_key. apply _. Defined.

(** [ReplaceOne] with [SetUpsert(true)]: the first document matching the
    filter is replaced; without a match the document is inserted. *)
Fixpoint upsert (blobId : string) (seq : Z) (doc : blobSegment)
    (ds : list blobSegment) : list blobSegment :=
  match ds with
  | [] => [doc]
  | d :: ds' =>
      if decide (has_key blobId seq d) then doc :: ds'
      else d :: upsert blobId seq doc ds'
  end.

(** What a successful round trip does to the documents. *)
Definition apply_op (op : StoreOp) (ds : list blobSegment) : list blobSegment :=
  match op with
  | CreateIndex => ds
  | ReplaceOne blobId seq doc => upsert blobId seq doc ds
  | DeleteIn blobIDs => filter (λ d, ID d ∉ blobIDs) ds
  | DeleteGte blobId seq => filter (λ d, ¬ (ID d = blobId ∧ seq ≤ Seq d)) ds
  | Find _ _ => ds
  end.

(** One round trip: it is logged, takes the next outcome of the fault
    script (an exhausted script means success) and, on success, takes
    effect. *)
Definition roundtrip (op : StoreOp) (c : collection) : option error * collection :=
  match faults c with
  | Some msg :: fs =>
      (Some (ErrOther msg), mkCollection (docs c) (oplog c ++ [op]) fs)
  | None :: fs => (None, mkCollection (apply_op op (docs c)) (oplog c ++ [op]) fs)
  | [] => (None, mkCollection (apply_op op (docs c)) (oplog c ++ [op]) [])
  end.

Definition seq_le (a b : blobSegment) : Prop := Seq a ≤ Seq b.
Definition seq_ge (a b : blobSegment) : Prop := Seq b ≤ Seq a.

Global Instance seq_le_dec a b : Decision (seq_le a b).
Proof. unfold seq_le. apply _. Defined.
Global Instance seq_ge_dec a b : Decision (seq_ge a b).
Proof. unfold seq_ge. apply _. Defined.

Global Instance seq_le_trans : Transitive seq_le.
Proof. unfold seq_le. intros x y z. lia. Qed.
Global Instance seq_le_total : Total seq_le.
Proof. unfold seq_le. intros x y. lia. Qed.
Global Instance seq_ge_trans : Transitive seq_ge.
Proof. unfold seq_ge. intros x y z. lia. Qed.
Global Instance seq_ge_total : Total seq_ge.
Proof. unfold seq_ge. intros x y. lia. Qed.

(** The documents of one blob. *)
Definition blob (blobId : string) (ds : list blobSegment) : list blobSegment :=
  filter (λ d, ID d = blobId) ds.

(** The rows a [Find] with filter [{blobId}] and sort [{seq: ±1}] yields. *)
Definition find_rows (blobId : string) (ascending : bool)
    (ds : list blobSegment) : list blobSegment :=
  if ascending then merge_sort seq_le (blob blobId ds)
  else merge_sort seq_ge (blob blobId ds).

(** ** Input streams *)

(** An [io.Reader] is abstracted by the bytes it still delivers and the
    error that ends it: [EOF] for a stream that ends, another error for one
    that fails.  The [nil] interface value is [None]. *)
Record Reader := mkReader {
  pending : list byte;
  final : error
}.

Definition io_Reader := option Reader.

(** [bytes.NewReader(b)]. *)
Definition NewReader (b : list byte) : io_Reader := Some (mkReader b EOF).

(** [io.ReadAtLeast(r, buf, min)]: the count, the error, the buffer as
    filled and the reader as left. *)
Definition ReadAtLeast (r : Reader) (buf : list byte) (min : Z)
    : Z * option error * list byte * Reader :=
  if decide (len buf < min) then (0, Some ErrShortBuffer, buf, r)
  else if decide (min ≤ 0) then (0, None, buf, r)
  else
    match pending r with
    | [] => (0, Some (final r), buf, r)
    | _ =>
        let got := take (length buf) (pending r) in
        let r' := mkReader (drop (length buf) (pending r)) (final r) in
        let buf' := got ++ drop (length got) buf in
        if decide (min ≤ len got) then (len got, None, buf', r')
        else if decide (final r = EOF) then (len got, Some ErrUnexpectedEOF, buf', r')
        else (len got, Some (final r), buf', r')
    end.

(** ** The store *)

Record Store := mkStore {
  Collection : collection;
  ChunkSize : Z;
  index : bool  (* sync.Once: already done *)
}.

Definition with_collection (store : Store) (c : collection) : Store :=
  mkStore c (ChunkSize store) (index store).

(** How a call ends: it returns, or the goroutine panics. *)
Inductive outcome (A : Type) :=
| Returned (a : A)
| Panicked.
Arguments Returned {A} a.
Arguments Panicked {A}.

(** [EnsureIndex]: the body runs on the first call only; the named result
    [err] of a later call is its zero value. *)
Definition EnsureIndex (store : Store) : option error * Store :=
  if index store then (None, store)
  else
    let '(err, c) := roundtrip CreateIndex (Collection store) in
    (err, mkStore c (ChunkSize store) true).

(** [Remove]. *)
Definition Remove (store : Store) (blobIDs : list string) : option error * Store :=
  match blobIDs with
  | [] => (None, store)
  | _ =>
      let '(err, c) := roundtrip (DeleteIn blobIDs) (Collection store) in
      (err, with_collection store c)
  end.

Definition effective_chunk_size (store : Store) : Z :=
  if decide (ChunkSize store ≤ 0) then DefaultChunkSize else ChunkSize store.

(** The [for] loop of [Write] and the [DeleteMany] after it.  [persist] is
    the part of the body after the branches on [err]: the segment takes
    [start] and its length, is upserted, and [Seq] is incremented.  [fuel]
    bounds the number of iterations; [None] is a loop still running when it
    is used up. *)
Fixpoint write_loop (fuel : nat) (c : collection) (data : Reader)
    (segment : blobSegment) (start : Z) : option (option error * collection) :=
  match fuel with
  | O => None
  | S fuel' =>
      let '(n, err, buf, data') :=
        ReadAtLeast data (Data segment) (len (Data segment)) in
      let persist (payload : list byte) :=
        let segment' :=
          mkSegment (ID segment) (Seq segment) payload start (uint64 (len payload)) in
        let start' := uint64 (start + uint64 (len payload)) in
        let '(err', c') :=
          roundtrip (ReplaceOne (ID segment') (Seq segment') segment') c in
        match err' with
        | Some e => Some (Some e, c')
        | None =>
            write_loop fuel' c' data'
              (mkSegment (ID segment') (uint64 (Seq segment' + 1)) payload
                 (Start segment') (N segment'))
              start'
        end in
      if errors_Is err ErrUnexpectedEOF then
        (* segment.Data = segment.Data[:n]; err = nil *)
        persist (take (Z.to_nat n) buf)
      else if errors_Is err EOF then
        (* break, then remove the remaining segments *)
        Some (roundtrip (DeleteGte (ID segment) (Seq segment)) c)
      else
        match err with
        | Some e => Some (Some e, c)
        | None => persist buf
        end
  end.

(** [Write].  Reading from the [nil] reader panics. *)
Definition Write (fuel : nat) (store : Store) (blobID : string)
    (data : io_Reader) : option (outcome (option error) * Store) :=
  let chunkSize := effective_chunk_size store in
  let segment :=
    mkSegment blobID 0 (replicate (Z.to_nat chunkSize) x00) 0 0 in
  match data with
  | None => Some (Panicked, store)
  | Some r =>
      match write_loop fuel (Collection store) r segment 0 with
      | Some (err, c) => Some (Returned err, with_collection store c)
      | None => None
      end
  end.

(** [Read]: the [Find], the first [cursor.Next], and the stream, which is
    the sequence of payloads the worker goroutine writes into the pipe
    while the cursor delivers the rows; [ReadAll] drains it.  The worker
    never looks at [cursor.Err()]: this is the stream on a store that
    answers the round trips the cursor makes after the [Find]. *)
Definition Read (store : Store) (blobID : string)
    : option (list (list byte)) * option error * Store :=
  let '(err, c) := roundtrip (Find blobID true) (Collection store) in
  let store' := with_collection store c in
  match err with
  | Some e => (None, Some e, store')
  | None =>
      match find_rows blobID true (docs c) with
      | [] => (None, Some ErrNotFound, store')
      | segment :: rest => (Some (Data segment :: map Data rest), None, store')
      end
  end.

Definition ReadAll (rd : list (list byte)) : list byte := concat rd.

(** [Size]. *)
Definition Size (store : Store) (blobID : string) : Z * option error * Store :=
  let '(err, c) := roundtrip (Find blobID false) (Collection store) in
  let store' := with_collection store c in
  match err with
  | Some e => (0, Some e, store')
  | None =>
      match find_rows blobID false (docs c) with
      | [] => (0, Some ErrNotFound, store')
      | last :: _ => (int64 (uint64 (Start last + N last)), None, store')
      end
  end.

(** ** Well-formed collections and the segments of a byte sequence *)

(** The compound key of the unique index. *)
Definition key (d : blobSegment) : string * Z := (ID d, Seq d).

(** The documents respect the unique index on [(blobId, seq)], and [seq]
    is unsigned. *)
Definition wf_docs (ds : list blobSegment) : Prop :=
  NoDup (key <$> ds) ∧ Forall (λ d, 0 ≤ Seq d) ds.

(** The store answers every coming round trip. *)
Definition healthy (c : collection) : Prop := faults c = [].

(** A byte sequence that fits a Go slice. *)
Definition fits_slice (b : list byte) : Prop := len b ≤ MaxInt64.

(** The segmentation of [b] into chunks of [chunk] bytes, described from
    outside the loop: numbered from [seq], laid out from offset [start]. *)
Fixpoint segments_from (fuel : nat) (blobID : string) (seq start : Z)
    (chunk : nat) (b : list byte) : list blobSegment :=
  match fuel, b with
  | S fuel', _ :: _ =>
      let payload := take chunk b in
      mkSegment blobID seq payload start (len payload)
      :: segments_from fuel' blobID (seq + 1) (start + len payload) chunk
           (drop chunk b)
  | _, _ => []
  end.

Definition segments (blobID : string) (chunk : Z) (b : list byte)
    : list blobSegment :=
  segments_from (length b) blobID 0 0 (Z.to_nat chunk) b.

(** A run of segments of one blob, numbered consecutively from [seq]. *)
Definition run (blobID : string) (seq : Z) (segs : list blobSegment) : Prop :=
  ∀ i s, segs !! i = Some s → ID s = blobID ∧ Seq s = seq + Z.of_nat i.

(** Upserting a run of segments, one [ReplaceOne] each. *)
Definition persist_all (segs : list blobSegment) (ds : list blobSegment)
    : list blobSegment :=
  foldl (λ acc s, upsert (ID s) (Seq s) s acc) ds segs.

Definition replace_op (s : blobSegment) : StoreOp := ReplaceOne (ID s) (Seq s) s.

(** Segments laid out back to back from offset [start], none empty, each
    with [n] the length of its payload. *)
Fixpoint contiguous_from (start : Z) (segs : list blobSegment) : Prop :=
  match segs with
  | [] => True
  | s :: rest =>
      Start s = start ∧ N s = len (Data s) ∧ 0 < N s ∧
      contiguous_from (start + N s) rest
  end.

(** The invariant of the data model on the rows of one blob, in [seq]
    order: a row starts at the total length of the rows before it, and the
    next row starts where it ends, strictly later. *)
Definition contiguous_rows (rows : list blobSegment) : Prop :=
  ∀ i s, rows !! i = Some s →
    Start s = len (concat (Data <$> take i rows)) ∧
    ∀ s', rows !! S i = Some s' →
      Start s' = Start s + N s ∧ Start s < Start s'.

(** The invariant for every blob of a collection. *)
Definition contiguous (ds : list blobSegment) : Prop :=
  ∀ blobID, contiguous_rows (find_rows blobID true ds).

(** A round trip that, if it is an upsert, carries a segment with a
    payload of at least one byte and at most [chunk] bytes, and [n] its
    length. *)
Definition carries_payload (chunk : Z) (op : StoreOp) : Prop :=
  match op with
  | ReplaceOne _ _ d => 1 ≤ len (Data d) ≤ chunk ∧ N d = len (Data d)
  | _ => True
  end.

(** ** Calls *)

(** The operations of the package as the steps of a store. *)
Inductive call :=
| CallEnsureIndex
| CallRemove (blobIDs : list string)
| CallWrite (fuel : nat) (blobID : string) (data : io_Reader)
| CallRead (blobID : string)
| CallSize (blobID : string).

(** The error a call returns and the store it leaves; [None] is a [Write]
    still looping. *)
Definition run_call (op : call) (store : Store)
    : option (outcome (option error) * Store) :=
  match op with
  | CallEnsureIndex =>
      let '(err, store') := EnsureIndex store in Some (Returned err, store')
  | CallRemove blobIDs =>
      let '(err, store') := Remove store blobIDs in Some (Returned err, store')
  | CallWrite fuel blobID data => Write fuel store blobID data
  | CallRead blobID =>
      let '(_, err, store') := Read store blobID in Some (Returned err, store')
  | CallSize blobID =>
      let '(_, err, store') := Size store blobID in Some (Returned err, store')
  end.

(** The blob a call writes, if any. *)
Definition writes_blob (op : call) (blobID : string) : Prop :=
  match op with
  | CallWrite _ blobID' _ => blobID' = blobID
  | _ => False
  end.


(** The bytes a [Write] is given fit a Go slice. *)
Definition call_fits (op : call) : Prop :=
  match op with
  | CallWrite _ _ (Some r) => fits_slice (pending r)
  | _ => True
  end.

(** ** Concurrent calls of [EnsureIndex] *)

(** [store.index.Do(f)] is [sync.Once.Do] of the Go standard library: a
    fast path that loads [done]; then the mutex is locked, [done] is
    checked again and, when it is still unset, [f] runs, [done] is stored by
    a deferred call and the mutex is unlocked.  A goroutine calling
    [EnsureIndex] is at one of these points. *)
Inductive pc :=
| Entry      (* about to load [done] on the fast path *)
| Locking    (* saw [done] unset, about to lock the mutex *)
| Checking   (* holds the mutex, about to load [done] again *)
| Creating   (* inside [f]: the [CreateOne] round trip is in flight *)
| Storing    (* [f] returned, about to store [done] *)
| Unlocking  (* about to unlock the mutex *)
| Finished.  (* [EnsureIndex] returned *)

(** The [sync.Once] of the store, the number of [CreateOne] round trips
    begun, and where each goroutine is. *)
Record shared := mkShared {
  onceDone : bool;
  mutexLocked : bool;
  creations : nat;
  goroutines : list pc
}.

Definition at_pc (i : nat) (p : pc) (st : shared) : shared :=
  mkShared (onceDone st) (mutexLocked st) (creations st) (<[i:=p]> (goroutines st)).

(** Goroutine [i] takes its next step; a goroutine waiting for the mutex
    does not move, and one that returned calls [EnsureIndex] again. *)
Definition step (i : nat) (st : shared) : shared :=
  match goroutines st !! i with
  | None => st
  | Some Entry => if onceDone st then at_pc i Finished st else at_pc i Locking st
  | Some Locking =>
      if mutexLocked st then st
      else mkShared (onceDone st) true (creations st) (<[i:=Checking]> (goroutines st))
  | Some Checking =>
      if onceDone st then at_pc i Unlocking st
      else mkShared (onceDone st) (mutexLocked st) (S (creations st))
             (<[i:=Creating]> (goroutines st))
  | Some Creating => at_pc i Storing st
  | Some Storing =>
      mkShared true (mutexLocked st) (creations st) (<[i:=Unlocking]> (goroutines st))
  | Some Unlocking =>
      mkShared (onceDone st) false (creations st) (<[i:=Finished]> (goroutines st))
  | Some Finished => at_pc i Entry st
  end.

(** The goroutines step in the order a schedule gives. *)
Definition run_schedule (schedule : list nat) (st : shared) : shared :=
  foldl (λ st i, step i st) st schedule.

(** [n] goroutines about to call [EnsureIndex] on a new store. *)
Definition start (n : nat) : shared := mkShared false false 0 (replicate n Entry).

(** The goroutines counted with weight [w]. *)
Fixpoint weight (w : pc → nat) (ps : list pc) : nat :=
  match ps with
  | [] => 0
  | p :: ps' => w p + weight w ps'
  end.

Definition holds_mutex (p : pc) : nat :=
  match p with Checking | Creating | Storing | Unlocking => 1 | _ => 0 end.
Definition in_body (p : pc) : nat :=
  match p with Creating | Storing => 1 | _ => 0 end.
Definition is_creating (p : pc) : nat :=
  match p with Creating => 1 | _ => 0 end.

Definition past_body (p : pc) : nat :=
  match p with Unlocking | Finished => 1 | _ => 0 end.

(** What every interleaving maintains. *)
Definition once_invariant (st : shared) : Prop :=
  weight holds_mutex (goroutines st) = (if mutexLocked st then 1 else 0)%nat ∧
  creations st =
    ((if onceDone st then 1 else 0) + weight in_body (goroutines st))%nat ∧
  (onceDone st = true → weight in_body (goroutines st) = 0%nat).

(** [n] calls of [EnsureIndex] one after the other. *)
Definition EnsureIndex_times (n : nat) (store : Store) : Store :=
  Nat.iter n (λ s, (EnsureIndex s).2) store.

(** ** Concrete runs *)

Definition emptyCollection : collection := mkCollection [] [] [].
Definition newStore (chunk : Z) : Store := mkStore emptyCollection chunk false.

Definition abcde : list byte := [x61; x62; x63; x64; x65].

(** The store after ["abcde"] was written to blob ["1"] in chunks of 2. *)
Definition abcde_store : Store :=
  Eval cbv in
    match Write 10 (newStore 2) "1" (NewReader abcde) with
    | Some (_, store) => store
    | None => newStore 2
    end.

(** A stream cut short: it delivers nothing more and ends with
    [io.ErrUnexpectedEOF], as the reader of a truncated transfer does. *)
Definition cut_short (b : list byte) : io_Reader :=
  Some (mkReader b ErrUnexpectedEOF).

(** A store that answers two round trips and fails the third. *)
Definition failing_third : Store :=
  mkStore (mkCollection [] [] [None; None; Some "offline"]) 2 false.


(** ** Which blobs a call may change *)

Definition touches (op : call) (blobID : string) : Prop :=
  match op with
  | CallWrite _ blobID' _ => blobID' = blobID
  | CallRemove blobIDs => blobID ∈ blobIDs
  | _ => False
  end.

(** ** The test of the package *)

Global Instance byte_eq_dec : EqDecision byte := Byte.byte_eq_dec.

(** What [TestBlob] reports through [t.Error] and [t.Errorf]. *)
Inductive report :=
| Unexpected (err : error)
| NotEqual
| WrongSize (n : Z)
| ErrorExpected.

(** [if err != nil { t.Error(err) }]. *)
Definition expect_nil (err : option error) : list report :=
  match err with
  | Some e => [Unexpected e]
  | None => []
  end.

(** [TestBlob] on the collection [c] the connection gives, with [data]
    the bytes [rdata(size)] draws; the result is what the test reports.
    [io.ReadAll] of the [nil] stream a failed [Read] returns panics. *)
Definition TestBlob (fuel : nat) (c : collection) (data : list byte)
    : option (outcome (list report)) :=
  let store := mkStore c 1024 false in
  let '(err, store) := EnsureIndex store in
  let t := expect_nil err in
  let size := 5005 in
  match Write fuel store "1" (NewReader data) with
  | None => None
  | Some (Panicked, _) => Some Panicked
  | Some (Returned err, store) =>
      let t := t ++ expect_nil err in
      let '(rd, err, store) := Read store "1" in
      let t := t ++ expect_nil err in
      match rd with
      | None => Some Panicked
      | Some rd =>
          let read := ReadAll rd in
          let t := t ++ (if decide (read = data) then [] else [NotEqual]) in
          let '(n, err, store) := Size store "1" in
          let t := t ++ expect_nil err in
          let t := t ++ (if decide (n = size) then [] else [WrongSize n]) in
          let '(_, store) := Remove store ["1"] in
          let '(_, err, _) := Read store "1" in
          let t :=
            t ++ (match err with None => [ErrorExpected] | Some _ => [] end) in
          Some (Returned t)
      end
  end.

(** ** Proof automation *)

(** Goals about concrete runs are settled by evaluation, one after the
    other: a later goal may mention the store an earlier one determines. *)
Ltac evaluate := vm_compute; reflexivity.
Ltac evaluate_each := first [split; [evaluate | evaluate_each] | evaluate].

(** * Properties *)

(** ** A first run *)

Example write_abcde :
  (docs ∘ Collection ∘ snd <$> Write 10 (newStore 2) "1" (NewReader abcde)) =
  Some [mkSegment "1" 0 [x61; x62] 0 2; mkSegment "1" 1 [x63; x64] 2 2;
        mkSegment "1" 2 [x65] 4 1].
Proof. vm_compute. reflexivity. Qed.

(** ** Lists of documents *)

Section lists.
Context {A : Type}.
Implicit Types l : list A.

Lemma filter_local_iff (P Q : A → Prop) `{∀ x, Decision (P x)}
    `{∀ x, Decision (Q x)} l :
  Forall (λ x, P x ↔ Q x) l → filter P l = filter Q l.
Proof.
  induction 1 as [|x l Hx _ IH]; [done|].
  rewrite !filter_cons, IH.
  destruct (decide (P x)), (decide (Q x)); tauto.
Qed.

Lemma filter_split (P Q : A → Prop) `{∀ x, Decision (P x)}
    `{∀ x, Decision (Q x)} l :
  (∀ x, P x → Q x → False) →
  filter (λ x, P x ∨ Q x) l ≡ₚ filter P l ++ filter Q l.
Proof.
  intros Hdisj. induction l as [|x l IH]; [done|].
  rewrite !filter_cons.
  destruct (decide (P x)) as [HP|HP], (decide (Q x)) as [HQ|HQ].
  - destruct (Hdisj x HP HQ).
  - rewrite decide_True by tauto. simpl. by rewrite IH.
  - rewrite decide_True by tauto. rewrite IH.
    by rewrite Permutation_middle.
  - rewrite decide_False by tauto. done.
Qed.

Lemma filter_none (P : A → Prop) `{∀ x, Decision (P x)} l :
  Forall (λ x, ¬ P x) l → filter P l = [].
Proof.
  induction 1 as [|x l Hx _ IH]; [done|].
  by rewrite filter_cons_False.
Qed.

Lemma NoDup_fmap_inj_on {B} (f : A → B) l x y :
  NoDup (f <$> l) → x ∈ l → y ∈ l → f x = f y → x = y.
Proof.
  induction l as [|a l IH]; intros Hnd Hx Hy Hf; [by inv Hx|].
  rewrite fmap_cons in Hnd. apply NoDup_cons in Hnd as [Ha Hnd].
  apply elem_of_cons in Hx as [->|Hx]; apply elem_of_cons in Hy as [->|Hy].
  - done.
  - destruct Ha. rewrite Hf. by apply list_elem_of_fmap_2.
  - destruct Ha. rewrite <-Hf. by apply list_elem_of_fmap_2.
  - by apply IH.
Qed.

Lemma NoDup_fmap_filter {B} (f : A → B) (P : A → Prop)
    `{∀ x, Decision (P x)} l :
  NoDup (f <$> l) → NoDup (f <$> filter P l).
Proof.
  induction l as [|a l IH]; [done|].
  rewrite fmap_cons, filter_cons. intros [Ha Hnd]%NoDup_cons.
  case_decide; [|by apply IH].
  rewrite fmap_cons. apply NoDup_cons. split; [|by apply IH].
  intros (y & Hy & [_ Hin]%list_elem_of_filter)%list_elem_of_fmap.
  apply Ha. rewrite Hy. by apply list_elem_of_fmap_2.
Qed.
End lists.

(** ** Upserts *)

Lemma upsert_keys blobId seq doc ds :
  key doc = (blobId, seq) →
  key <$> upsert blobId seq doc ds =
    if decide ((blobId, seq) ∈ key <$> ds) then key <$> ds
    else (key <$> ds) ++ [(blobId, seq)].
Proof.
  intros Hk. induction ds as [|d ds IH]; cbn [upsert].
  - rewrite decide_False by (apply not_elem_of_nil). by rewrite <-Hk.
  - destruct (decide (has_key blobId seq d)) as [[Hi Hs]|Hn];
      rewrite !fmap_cons.
    + assert (key d = (blobId, seq)) as Hd by (unfold key; congruence).
      rewrite Hd, Hk. rewrite decide_True by left. done.
    + rewrite IH. destruct (decide ((blobId, seq) ∈ key <$> ds)) as [Hin|Hin].
      * rewrite decide_True by (by right). done.
      * rewrite decide_False; [done|].
        intros [Heq|?]%elem_of_cons; [|done].
        apply Hn. unfold key in Heq. split; congruence.
Qed.

Lemma upsert_NoDup blobId seq doc ds :
  key doc = (blobId, seq) → NoDup (key <$> ds) →
  NoDup (key <$> upsert blobId seq doc ds).
Proof.
  intros Hk Hnd. rewrite upsert_keys by done.
  case_decide as Hin; [done|].
  apply NoDup_app. split_and!; [done| |apply NoDup_singleton].
  intros x Hx ->%list_elem_of_singleton. done.
Qed.

Lemma upsert_Forall (P : blobSegment → Prop) blobId seq doc ds :
  P doc → Forall P ds → Forall P (upsert blobId seq doc ds).
Proof.
  intros Hdoc. induction 1 as [|d ds Hd Hds IH]; simpl.
  - by constructor.
  - case_decide; constructor; done.
Qed.

Lemma upsert_wf blobId seq doc ds :
  key doc = (blobId, seq) → 0 ≤ seq → wf_docs ds →
  wf_docs (upsert blobId seq doc ds).
Proof.
  intros Hk Hseq [Hnd Hall]. split.
  - by apply upsert_NoDup.
  - apply upsert_Forall; [|done]. unfold key in Hk. by simplify_eq.
Qed.

(** A filter that rejects the key is blind to the upsert. *)
Lemma upsert_filter_miss (P : blobSegment → Prop) `{∀ d, Decision (P d)}
    blobId seq doc ds :
  (∀ d, key d = (blobId, seq) → ¬ P d) → key doc = (blobId, seq) →
  filter P (upsert blobId seq doc ds) = filter P ds.
Proof.
  intros HP Hk. induction ds as [|d ds IH]; simpl.
  - rewrite filter_cons_False by (by apply HP). done.
  - destruct (decide (has_key blobId seq d)) as [[Hi Hs]|Hn].
    + rewrite !filter_cons_False; [done| |by apply HP].
      apply HP. unfold key. by rewrite Hi, Hs.
    + rewrite !filter_cons, IH. done.
Qed.

(** Under the unique index the key selects the upserted document alone. *)
Lemma upsert_filter_hit blobId seq doc ds :
  key doc = (blobId, seq) → NoDup (key <$> ds) →
  filter (λ d, key d = (blobId, seq)) (upsert blobId seq doc ds) = [doc].
Proof.
  intros Hk. induction ds as [|d ds IH]; intros Hnd; simpl.
  - by rewrite filter_cons_True.
  - rewrite fmap_cons in Hnd. apply NoDup_cons in Hnd as [Hd Hnd].
    destruct (decide (has_key blobId seq d)) as [[Hi Hs]|Hn].
    + rewrite filter_cons_True by done. f_equal.
      apply filter_none, Forall_forall. intros x Hx Hkx.
      apply Hd. replace (key d) with (blobId, seq)
        by (unfold key; by rewrite Hi, Hs).
      rewrite <-Hkx. by apply list_elem_of_fmap_2.
    + rewrite filter_cons_False; [by apply IH|].
      intros Hkd. apply Hn. unfold key in Hkd. split; congruence.
Qed.

(** ** Runs of upserts *)

Lemma persist_all_cons s segs ds :
  persist_all (s :: segs) ds = persist_all segs (upsert (ID s) (Seq s) s ds).
Proof. done. Qed.

Lemma persist_all_wf segs ds :
  Forall (λ s, 0 ≤ Seq s) segs → wf_docs ds → wf_docs (persist_all segs ds).
Proof.
  intros Hsegs. revert ds. induction Hsegs as [|s segs Hs _ IH]; intros ds Hwf.
  - done.
  - rewrite persist_all_cons. apply IH. by apply upsert_wf.
Qed.

Lemma persist_all_filter_miss (P : blobSegment → Prop) `{∀ d, Decision (P d)}
    segs ds :
  (∀ d, key d ∈ key <$> segs → ¬ P d) →
  filter P (persist_all segs ds) = filter P ds.
Proof.
  revert ds. induction segs as [|s segs IH]; intros ds HP; [done|].
  rewrite persist_all_cons, IH.
  - apply upsert_filter_miss; [|done].
    intros d Hd. apply HP. rewrite fmap_cons. apply elem_of_cons. by left.
  - intros d Hd. apply HP. rewrite fmap_cons. by right.
Qed.

Lemma persist_all_filter_hit segs ds :
  NoDup (key <$> segs) → NoDup (key <$> ds) →
  filter (λ d, key d ∈ key <$> segs) (persist_all segs ds) ≡ₚ segs.
Proof.
  revert ds. induction segs as [|s segs IH]; intros ds Hsegs Hds.
  - simpl. rewrite filter_none; [done|].
    apply Forall_forall. intros x _. apply not_elem_of_nil.
  - rewrite fmap_cons in Hsegs. apply NoDup_cons in Hsegs as [Hs Hsegs].
    rewrite persist_all_cons.
    rewrite (filter_local_iff _
      (λ d, key d = key s ∨ key d ∈ key <$> segs)).
    2:{ apply Forall_forall. intros x _. rewrite fmap_cons, elem_of_cons. done. }
    rewrite filter_split by (intros x -> ?; done).
    rewrite (persist_all_filter_miss (λ x, key x = key s))
      by (intros d Hin Heq; by rewrite Heq in Hin).
    rewrite (upsert_filter_hit (ID s) (Seq s)) by done.
    rewrite IH; [done|done|]. by apply upsert_NoDup.
Qed.

(** ** The segmentation of a byte sequence *)

Section segmentation.
Variable blobID : string.
Variable chunk : nat.

Lemma segments_from_nil fuel seq start :
  segments_from fuel blobID seq start chunk [] = [].
Proof. by destruct fuel. Qed.

Lemma segments_from_ID fuel seq start b :
  Forall (λ s, ID s = blobID) (segments_from fuel blobID seq start chunk b).
Proof.
  revert seq start b. induction fuel as [|fuel IH]; intros seq start [|x b];
    simpl; constructor; [done|apply IH].
Qed.

Lemma segments_from_Seq fuel seq start b i s :
  segments_from fuel blobID seq start chunk b !! i = Some s →
  Seq s = seq + Z.of_nat i.
Proof.
  revert seq start b i.
  induction fuel as [|fuel IH]; intros seq start [|x b] [|i]; simpl; try done.
  - intros [= <-]. simpl. lia.
  - intros Hs%IH. lia.
Qed.

Lemma segments_from_Seq_ge fuel seq start b :
  Forall (λ s, seq ≤ Seq s) (segments_from fuel blobID seq start chunk b).
Proof.
  apply Forall_lookup. intros i s Hs%segments_from_Seq. lia.
Qed.

Lemma segments_from_sorted fuel seq start b :
  StronglySorted (λ s1 s2, Seq s1 < Seq s2)
    (segments_from fuel blobID seq start chunk b).
Proof.
  revert seq start b. induction fuel as [|fuel IH]; intros seq start [|x b];
    simpl; try constructor; [apply IH|].
  eapply Forall_impl; [apply segments_from_Seq_ge|]. simpl. intros; lia.
Qed.

Hypothesis chunk_pos : (0 < chunk)%nat.

Lemma segments_from_fuel fuel1 fuel2 seq start b :
  (length b ≤ fuel1)%nat → (length b ≤ fuel2)%nat →
  segments_from fuel1 blobID seq start chunk b =
  segments_from fuel2 blobID seq start chunk b.
Proof.
  revert fuel2 seq start b.
  induction fuel1 as [|fuel1 IH]; intros fuel2 seq start [|x b] H1 H2;
    rewrite ?segments_from_nil; try done; simpl in *; try lia.
  destruct fuel2 as [|fuel2]; [lia|]. simpl. f_equal.
  destruct chunk as [|k]; [lia|]. simpl.
  apply IH; rewrite length_drop; lia.
Qed.

Lemma segments_from_concat fuel seq start b :
  (length b ≤ fuel)%nat →
  concat (Data <$> segments_from fuel blobID seq start chunk b) = b.
Proof.
  revert seq start b. induction fuel as [|fuel IH]; intros seq start [|x b] Hf;
    simpl in *; try done; try lia.
  destruct chunk as [|k]; [lia|]. simpl. f_equal.
  rewrite IH by (rewrite length_drop; lia). apply take_drop.
Qed.

Lemma segments_from_payload fuel seq start b :
  Forall (λ s, N s = len (Data s) ∧ 1 ≤ N s ≤ Z.of_nat chunk)
    (segments_from fuel blobID seq start chunk b).
Proof.
  revert seq start b. induction fuel as [|fuel IH]; intros seq start [|x b];
    simpl; constructor; [|apply IH].
  simpl. split; [done|]. unfold len. rewrite length_take.
  destruct chunk; simpl; lia.
Qed.

Lemma segments_from_contiguous fuel seq start b :
  contiguous_from start (segments_from fuel blobID seq start chunk b).
Proof.
  revert seq start b. induction fuel as [|fuel IH]; intros seq start [|x b];
    simpl; try done.
  split_and!; [done|done| |apply IH].
  unfold len. rewrite length_take. destruct chunk; simpl; lia.
Qed.

(** The last segment ends where the byte sequence ends. *)
Lemma segments_from_last fuel seq start b s :
  (length b ≤ fuel)%nat →
  last (segments_from fuel blobID seq start chunk b) = Some s →
  Start s + N s = start + len b.
Proof.
  revert seq start b. induction fuel as [|fuel IH]; intros seq start [|x b] Hf;
    simpl in *; try done; try lia.
  destruct (segments_from fuel blobID (seq + 1)
    (start + len (take chunk (x :: b))) chunk (drop chunk (x :: b)))
    as [|s' rest] eqn:Hrest.
  - intros [= <-]. simpl. f_equal.
    destruct chunk as [|k]; [lia|]. simpl in *.
    destruct (drop k b) as [|y b'] eqn:Hdrop.
    + apply (f_equal length) in Hdrop. rewrite length_drop in Hdrop.
      simpl in Hdrop. unfold len. simpl. rewrite length_take. lia.
    + destruct fuel; [|done].
      apply (f_equal length) in Hdrop. rewrite length_drop in Hdrop.
      simpl in Hdrop. lia.
  - rewrite last_cons_cons, <-Hrest. intros Hl. apply IH in Hl.
    + rewrite Hl. unfold len. rewrite length_drop, length_take.
      destruct chunk; simpl in *; lia.
    + destruct chunk as [|k]; [lia|]. simpl. rewrite length_drop. lia.
Qed.

Lemma segments_from_nonempty fuel seq start b :
  b ≠ [] → (length b ≤ fuel)%nat →
  segments_from fuel blobID seq start chunk b ≠ [].
Proof. destruct fuel, b; simpl; try done. lia. Qed.

Lemma segments_from_length fuel seq start b :
  (length b ≤ fuel)%nat →
  len (segments_from fuel blobID seq start chunk b) ≤ len b.
Proof.
  unfold len. revert seq start b.
  induction fuel as [|fuel IH]; intros seq start [|x b] Hf;
    simpl in *; try lia.
  destruct chunk as [|k]; [lia|]. simpl.
  specialize (IH (seq + 1) (start + len (x :: take k b)) (drop k b)).
  rewrite length_drop in IH. lia.
Qed.
End segmentation.

(** ** Reading a chunk *)

Lemma uint64_small z : 0 ≤ z < 2 ^ 64 → uint64 z = z.
Proof. intros. unfold uint64. by apply Z.mod_small. Qed.

Lemma uint64_nonneg z : 0 ≤ uint64 z.
Proof. unfold uint64. apply Z.mod_pos_bound. lia. Qed.

Lemma int64_small z : 0 ≤ z ≤ MaxInt64 → int64 z = z.
Proof.
  unfold int64, MaxInt64. intros. rewrite Z.mod_small; lia.
Qed.

(** ** Errors and the sentinels they wrap *)

Lemma errors_Is_nil target : errors_Is None target = false.
Proof. done. Qed.

Lemma errors_Is_self e : errors_Is (Some e) e = true.
Proof. unfold errors_Is. destruct e; cbn [wraps]; by rewrite decide_True. Qed.

Lemma errors_Is_EOF_cut_short : errors_Is (Some EOF) ErrUnexpectedEOF = false.
Proof. done. Qed.



Lemma errors_Is_neq e target :
  errors_Is (Some e) target = false → e ≠ target.
Proof. intros He ->. by rewrite errors_Is_self in He. Qed.

Lemma ReadAtLeast_end e buf :
  (0 < length buf)%nat →
  ReadAtLeast (mkReader [] e) buf (len buf) = (0, Some e, buf, mkReader [] e).
Proof.
  intros Hbuf. unfold ReadAtLeast, len.
  rewrite decide_False by lia. rewrite decide_False by lia. done.
Qed.

Lemma ReadAtLeast_full e buf b :
  (0 < length buf ≤ length b)%nat →
  ReadAtLeast (mkReader b e) buf (len buf) =
    (len buf, None, take (length buf) b, mkReader (drop (length buf) b) e).
Proof.
  intros Hbuf. unfold ReadAtLeast, len.
  rewrite decide_False by lia. rewrite decide_False by lia.
  destruct b as [|x b]; [simpl in Hbuf; lia|]. cbn [pending final].
  rewrite length_take_le by lia. rewrite decide_True by lia.
  by rewrite drop_all, app_nil_r.
Qed.

Lemma ReadAtLeast_short e buf b :
  b ≠ [] → (length b < length buf)%nat →
  ReadAtLeast (mkReader b e) buf (len buf) =
    (len b, Some (if decide (e = EOF) then ErrUnexpectedEOF else e),
     b ++ drop (length b) buf, mkReader [] e).
Proof.
  intros Hb Hbuf. unfold ReadAtLeast, len.
  rewrite decide_False by lia. rewrite decide_False by lia.
  destruct b as [|x b]; [done|]. cbn [pending final].
  rewrite take_ge by lia. rewrite (drop_ge (x :: b)) by lia.
  rewrite decide_False by lia. by case_decide.
Qed.

Lemma roundtrip_healthy op c :
  healthy c →
  roundtrip op c = (None, mkCollection (apply_op op (docs c)) (oplog c ++ [op]) []).
Proof. unfold healthy, roundtrip. by intros ->. Qed.

(** ** The loop of [Write] on a byte sequence *)

Lemma write_loop_bytes fuel c b seg start chunk :
  healthy c → (0 < chunk)%nat →
  length (Data seg) = chunk ∨ (b = [] ∧ (0 < length (Data seg))%nat) →
  (length b < fuel)%nat →
  0 ≤ Seq seg → Seq seg + len b < 2 ^ 64 →
  0 ≤ start → start + len b < 2 ^ 64 →
  let segs := segments_from (length b) (ID seg) (Seq seg) start chunk b in
  let truncate := DeleteGte (ID seg) (Seq seg + len segs) in
  write_loop fuel c (mkReader b EOF) seg start =
    Some (None,
          mkCollection (apply_op truncate (persist_all segs (docs c)))
            (oplog c ++ (replace_op <$> segs) ++ [truncate]) []).
Proof.
  revert c b seg start.
  induction fuel as [|fuel IH]; intros c b seg start Hc Hchunk Hbuf Hfuel
    Hseq Hseqs Hstart Hstarts; [lia|].
  destruct b as [|x b'].
  - (* end of input: the loop breaks and the tail is deleted *)
    cbn [write_loop]. rewrite ReadAtLeast_end by (destruct Hbuf; lia).
    rewrite errors_Is_EOF_cut_short, errors_Is_self.
    rewrite roundtrip_healthy by done.
    cbn. by rewrite Z.add_0_r.
  - destruct Hbuf as [Hbuf|[? _]]; [|done].
    set (b := x :: b') in *.
    assert (len (take chunk b) = len b `min` Z.of_nat chunk) as Hlen
      by (unfold len; rewrite length_take; lia).
    assert (1 ≤ len b) as Hb by (unfold len, b; simpl; lia).
    assert (len (drop chunk b) = len b - len (take chunk b)) as Hrest
      by (unfold len; rewrite length_drop, length_take; lia).
    assert (write_loop (S fuel) c (mkReader b EOF) seg start =
      write_loop fuel
        (mkCollection
           (upsert (ID seg) (Seq seg)
              (mkSegment (ID seg) (Seq seg) (take chunk b) start
                 (len (take chunk b)))
              (docs c))
           (oplog c ++ [replace_op
              (mkSegment (ID seg) (Seq seg) (take chunk b) start
                 (len (take chunk b)))]) [])
        (mkReader (drop chunk b) EOF)
        (mkSegment (ID seg) (Seq seg + 1) (take chunk b) start
           (len (take chunk b)))
        (start + len (take chunk b))) as ->.
    { cbn [write_loop].
      destruct (decide (chunk ≤ length b)%nat) as [Hfull|Hpart].
      - rewrite ReadAtLeast_full by lia. rewrite Hbuf.
        rewrite !errors_Is_nil.
        rewrite roundtrip_healthy by done. cbn.
        rewrite !uint64_small by lia. done.
      - rewrite ReadAtLeast_short by (done || lia).
        rewrite decide_True by done. rewrite errors_Is_self.
        replace (Z.to_nat (len b)) with (length b) by (unfold len; lia).
        rewrite take_app_length.
        rewrite roundtrip_healthy by done. cbn.
        rewrite (take_ge b chunk), (drop_ge b chunk) by lia.
        rewrite !uint64_small by lia. done. }
    assert (segments_from (length b) (ID seg) (Seq seg) start chunk b =
      mkSegment (ID seg) (Seq seg) (take chunk b) start (len (take chunk b))
      :: segments_from (length (drop chunk b)) (ID seg) (Seq seg + 1)
           (start + len (take chunk b)) chunk (drop chunk b)) as Hsegs.
    { unfold b. cbn [length segments_from]. fold b. f_equal.
      apply segments_from_fuel; [done| |done].
      rewrite length_drop. unfold b. simpl. lia. }
    cbv zeta. rewrite Hsegs.
    rewrite IH; cbn [ID Seq Data docs oplog]; try done; try lia.
    + rewrite persist_all_cons, fmap_cons. cbn [ID Seq].
      replace (Seq seg + 1 + len _) with (Seq seg + len
        (mkSegment (ID seg) (Seq seg) (take chunk b) start
           (len (take chunk b))
         :: segments_from (length (drop chunk b)) (ID seg) (Seq seg + 1)
              (start + len (take chunk b)) chunk (drop chunk b)))
        by (unfold len; simpl; lia).
      by rewrite <-!app_assoc.
    + destruct (decide (chunk ≤ length b)%nat).
      * left. rewrite length_take. lia.
      * right. split; [by rewrite drop_ge by lia|].
        rewrite length_take. unfold b. simpl. lia.
    + rewrite length_drop. unfold b in *. simpl in *. lia.
Qed.

(** ** Runs of consecutively numbered segments *)

Lemma segments_from_run blobID chunk fuel seq start b :
  run blobID seq (segments_from fuel blobID seq start chunk b).
Proof.
  intros i s Hs. split.
  - by eapply (Forall_lookup_1 _ _ _ _ (segments_from_ID _ _ _ _ _ _)).
  - eapply segments_from_Seq, Hs.
Qed.

Lemma run_tail blobID seq s segs :
  run blobID seq (s :: segs) → run blobID (seq + 1) segs.
Proof.
  intros Hrun i s' Hs'. destruct (Hrun (S i) s' Hs') as [? ?]. split; [done|lia].
Qed.

Lemma run_keys blobID seq segs i j :
  run blobID seq segs →
  (i, j) ∈ key <$> segs ↔ i = blobID ∧ seq ≤ j < seq + len segs.
Proof.
  intros Hrun. unfold len. split.
  - intros (s & Hk & (n & Hn)%list_elem_of_lookup)%list_elem_of_fmap.
    destruct (Hrun n s Hn) as [Hid Hseq].
    apply lookup_lt_Some in Hn. unfold key in Hk.
    injection Hk as -> ->. split; [done|lia].
  - intros (-> & Hj).
    destruct (lookup_lt_is_Some_2 segs (Z.to_nat (j - seq))) as [s Hs]; [lia|].
    destruct (Hrun _ s Hs) as [Hid Hseq].
    apply list_elem_of_fmap. exists s. split.
    + unfold key. f_equal; [done|lia].
    + by eapply list_elem_of_lookup_2.
Qed.

Lemma run_NoDup blobID seq segs :
  run blobID seq segs → NoDup (key <$> segs).
Proof.
  intros Hrun. apply NoDup_alt. intros i j k.
  rewrite !list_lookup_fmap_Some.
  intros (s1 & -> & H1) (s2 & Hk & H2).
  destruct (Hrun i s1 H1) as [_ ?]. destruct (Hrun j s2 H2) as [_ ?].
  unfold key in Hk. injection Hk as _ Hk. lia.
Qed.

Lemma run_nonneg blobID seq segs :
  0 ≤ seq → run blobID seq segs → Forall (λ s, 0 ≤ Seq s) segs.
Proof.
  intros Hseq Hrun. apply Forall_lookup. intros i s Hs.
  destruct (Hrun i s Hs). lia.
Qed.

Lemma run_sorted blobID seq segs :
  run blobID seq segs → StronglySorted seq_le segs.
Proof.
  revert seq. induction segs as [|s segs IH]; intros seq Hrun; constructor.
  - eapply IH, run_tail, Hrun.
  - apply Forall_lookup. intros i s' Hs'.
    destruct (Hrun 0%nat s eq_refl) as [_ ?].
    destruct (Hrun (S i) s' Hs') as [_ ?]. unfold seq_le. lia.
Qed.

Lemma run_sorted_reverse blobID seq segs :
  run blobID seq segs → StronglySorted seq_ge (reverse segs).
Proof.
  revert seq. induction segs as [|s segs IH]; intros seq Hrun.
  - constructor.
  - rewrite reverse_cons. apply StronglySorted_app. split_and!.
    + intros s' x Hs' ->%list_elem_of_singleton.
      rewrite elem_of_reverse in Hs'.
      apply list_elem_of_lookup in Hs' as [i Hs'].
      destruct (Hrun 0%nat s eq_refl) as [_ ?].
      destruct (Hrun (S i) s' Hs') as [_ ?]. unfold seq_ge. lia.
    + eapply IH, run_tail, Hrun.
    + repeat constructor.
Qed.

(** Two rows of a run with the same [seq] are the same row. *)
Lemma run_same_seq blobID seq segs s1 s2 :
  run blobID seq segs → s1 ∈ segs → s2 ∈ segs → Seq s1 = Seq s2 → s1 = s2.
Proof.
  intros Hrun H1 H2 Heq.
  apply (NoDup_fmap_inj_on key segs); [by eapply run_NoDup|done..|].
  apply list_elem_of_lookup in H1 as [i1 H1], H2 as [i2 H2].
  destruct (Hrun _ _ H1) as [? _], (Hrun _ _ H2) as [? _].
  unfold key. congruence.
Qed.

(** ** The collection after a run was upserted and the tail truncated *)

Section written.
Variable blobID : string.
Variable segs ds : list blobSegment.
Hypothesis segs_run : run blobID 0 segs.
Hypothesis ds_wf : wf_docs ds.

Local Abbreviation ds' :=
  (apply_op (DeleteGte blobID (len segs)) (persist_all segs ds)).

Lemma persisted_wf : wf_docs (persist_all segs ds).
Proof. apply persist_all_wf; [|done]. by eapply run_nonneg. Qed.

Lemma written_wf : wf_docs ds'.
Proof.
  destruct persisted_wf as [Hnd Hall]. split.
  - by apply NoDup_fmap_filter.
  - apply Forall_forall. intros d [_ Hd]%list_elem_of_filter.
    by eapply Forall_forall in Hall.
Qed.

Lemma written_blob : blob blobID ds' ≡ₚ segs.
Proof.
  unfold blob, ds', apply_op. rewrite list_filter_filter.
  rewrite (filter_local_iff _ (λ d, key d ∈ key <$> segs)).
  - apply persist_all_filter_hit; [by eapply run_NoDup|apply ds_wf].
  - destruct persisted_wf as [_ Hall].
    eapply Forall_impl; [exact Hall|]. intros d Hd. cbn beta in *.
    pose proof (run_keys blobID 0 segs (ID d) (Seq d) segs_run) as Hk.
    change (ID d, Seq d) with (key d) in Hk. rewrite Hk. intuition lia.
Qed.

Lemma written_other blobID' :
  blobID' ≠ blobID → blob blobID' ds' = blob blobID' ds.
Proof.
  intros Hne. unfold blob, ds', apply_op. rewrite list_filter_filter.
  rewrite (list_filter_iff _ (λ d, ID d = blobID')) by (intros d; intuition congruence).
  apply persist_all_filter_miss. intros d Hd Hid.
  destruct d as [i j ? ? ?]. unfold key in Hd. simpl in *.
  apply (run_keys blobID 0) in Hd as [? _]; [|done]. congruence.
Qed.

Lemma written_rows : find_rows blobID true ds' = segs.
Proof.
  unfold find_rows.
  apply (StronglySorted_unique_strong seq_le).
  - intros s1 s2 H1 H2 Hle Hge.
    rewrite merge_sort_Permutation, written_blob in H1.
    apply (run_same_seq blobID 0 segs); [done..|].
    unfold seq_le in *. lia.
  - apply StronglySorted_merge_sort; apply _.
  - by eapply run_sorted.
  - by rewrite merge_sort_Permutation, written_blob.
Qed.

Lemma written_rows_desc : find_rows blobID false ds' = reverse segs.
Proof.
  unfold find_rows.
  apply (StronglySorted_unique_strong seq_ge).
  - intros s1 s2 H1 H2 Hle Hge.
    rewrite merge_sort_Permutation, written_blob in H1.
    rewrite elem_of_reverse in H2.
    apply (run_same_seq blobID 0 segs); [done..|].
    unfold seq_ge in *. lia.
  - apply StronglySorted_merge_sort; apply _.
  - by eapply run_sorted_reverse.
  - by rewrite merge_sort_Permutation, written_blob, reverse_Permutation.
Qed.

Lemma written_rows_other blobID' ascending :
  blobID' ≠ blobID →
  find_rows blobID' ascending ds' = find_rows blobID' ascending ds.
Proof. intros Hne. unfold find_rows. by rewrite written_other. Qed.
End written.

(** ** [Write], [Read] and [Size] on a byte sequence *)

Lemma effective_chunk_size_pos store : 0 < effective_chunk_size store.
Proof. unfold effective_chunk_size, DefaultChunkSize. case_decide; lia. Qed.

Lemma segments_run blobID chunk b : run blobID 0 (segments blobID chunk b).
Proof. apply segments_from_run. Qed.

Lemma segments_concat blobID chunk b :
  0 < chunk → concat (Data <$> segments blobID chunk b) = b.
Proof. intros. apply segments_from_concat; lia. Qed.

Lemma segments_nil_iff blobID chunk b :
  0 < chunk → segments blobID chunk b = [] ↔ b = [].
Proof.
  intros Hc. split.
  - intros Hs. destruct (decide (b = [])) as [|Hb]; [done|].
    apply (segments_from_nonempty blobID (Z.to_nat chunk)) in Hs;
      [done|lia|done|lia].
  - by intros ->.
Qed.

(** What a successful [Write] of [b] leaves in the collection. *)
Lemma Write_bytes fuel store blobID b :
  healthy (Collection store) → (length b < fuel)%nat → len b < 2 ^ 64 →
  let c := Collection store in
  let segs := segments blobID (effective_chunk_size store) b in
  let truncate := DeleteGte blobID (len segs) in
  Write fuel store blobID (NewReader b) =
    Some (Returned None,
          with_collection store
            (mkCollection (apply_op truncate (persist_all segs (docs c)))
               (oplog c ++ (replace_op <$> segs) ++ [truncate]) [])).
Proof.
  intros Hc Hfuel Hlen. pose proof (effective_chunk_size_pos store) as Hpos.
  unfold Write, NewReader.
  rewrite (write_loop_bytes _ _ _ _ _ (Z.to_nat (effective_chunk_size store)));
    cbn [ID Seq Data]; try done; try lia.
  left. by rewrite length_replicate.
Qed.

Lemma Read_healthy store blobID :
  healthy (Collection store) →
  let c := Collection store in
  let store' :=
    with_collection store
      (mkCollection (docs c) (oplog c ++ [Find blobID true]) []) in
  Read store blobID =
    match find_rows blobID true (docs c) with
    | [] => (None, Some ErrNotFound, store')
    | segment :: rest => (Some (Data <$> segment :: rest), None, store')
    end.
Proof. intros Hc. unfold Read. by rewrite roundtrip_healthy. Qed.

Lemma Size_healthy store blobID :
  healthy (Collection store) →
  let c := Collection store in
  let store' :=
    with_collection store
      (mkCollection (docs c) (oplog c ++ [Find blobID false]) []) in
  Size store blobID =
    match find_rows blobID false (docs c) with
    | [] => (0, Some ErrNotFound, store')
    | last :: _ => (int64 (uint64 (Start last + N last)), None, store')
    end.
Proof. intros Hc. unfold Size. by rewrite roundtrip_healthy. Qed.

(** The store a successful [Write] of [b] returns: its documents are
    well formed, the blob's rows are the segments of [b], and the rows of
    the other blobs are as before. *)
Lemma Write_bytes_rows fuel store blobID b :
  wf_docs (docs (Collection store)) → healthy (Collection store) →
  (length b < fuel)%nat → len b < 2 ^ 64 →
  ∃ store',
    Write fuel store blobID (NewReader b) = Some (Returned None, store') ∧
    ChunkSize store' = ChunkSize store ∧
    healthy (Collection store') ∧
    wf_docs (docs (Collection store')) ∧
    find_rows blobID true (docs (Collection store')) =
      segments blobID (effective_chunk_size store) b ∧
    find_rows blobID false (docs (Collection store')) =
      reverse (segments blobID (effective_chunk_size store) b) ∧
    ∀ blobID' ascending, blobID' ≠ blobID →
      find_rows blobID' ascending (docs (Collection store')) =
      find_rows blobID' ascending (docs (Collection store)).
Proof.
  intros Hwf Hc Hfuel Hlen. eexists. split; [by apply Write_bytes|].
  cbn [with_collection Collection ChunkSize docs].
  pose proof (segments_run blobID (effective_chunk_size store) b) as Hrun.
  split_and!; [done|done| | | |].
  - by apply written_wf.
  - by apply written_rows.
  - by apply written_rows_desc.
  - intros. by apply written_rows_other.
Qed.

(** ** Round trip *)

Lemma Read_segments store blobID chunk b :
  0 < chunk → healthy (Collection store) →
  find_rows blobID true (docs (Collection store)) = segments blobID chunk b →
  ∃ store',
    match b with
    | [] => Read store blobID = (None, Some ErrNotFound, store')
    | _ => ∃ rd, Read store blobID = (Some rd, None, store') ∧ ReadAll rd = b
    end.
Proof.
  intros Hchunk Hc Hrows. eexists. rewrite Read_healthy, Hrows by done.
  destruct b as [|x b]; [done|].
  destruct (segments blobID chunk (x :: b)) as [|s rest] eqn:Hsegs.
  { by apply segments_nil_iff in Hsegs. }
  eexists. split; [done|]. unfold ReadAll.
  rewrite <-Hsegs. by apply segments_concat.
Qed.

(** C1, amended: after [Write] of a non-empty byte sequence [b], [Read]
    returns a stream that drains to exactly [b], whatever the chunk size;
    after [Write] of the empty sequence it fails with [ErrNotFound]. *)
Theorem write_read_roundtrip fuel store blobID b :
  wf_docs (docs (Collection store)) → healthy (Collection store) →
  (length b < fuel)%nat → fits_slice b →
  ∃ store' store'',
    Write fuel store blobID (NewReader b) = Some (Returned None, store') ∧
    match b with
    | [] => Read store' blobID = (None, Some ErrNotFound, store'')
    | _ => ∃ rd, Read store' blobID = (Some rd, None, store'') ∧ ReadAll rd = b
    end.
Proof.
  intros Hwf Hc Hfuel Hfits.
  destruct (Write_bytes_rows fuel store blobID b)
    as (store' & Hw & _ & Hc' & _ & Hrows & _); [done..| |].
  { unfold fits_slice, MaxInt64 in Hfits. lia. }
  destruct (Read_segments store' blobID (effective_chunk_size store) b)
    as [store'' Hr]; [apply effective_chunk_size_pos|done..|].
  by exists store', store''.
Qed.

Lemma write_read_roundtrip_witness :
  ∃ store' store'',
    Write 10 (newStore 2) "1" (NewReader abcde) = Some (Returned None, store') ∧
    ∃ rd, Read store' "1" = (Some rd, None, store'') ∧ ReadAll rd = abcde.
Proof.
  apply (write_read_roundtrip 10 (newStore 2) "1" abcde).
  - split; constructor.
  - reflexivity.
  - simpl. lia.
  - by vm_compute.
Defined.

(** C1 as stated fails on the empty byte sequence: the write succeeds and
    leaves no segment, so the read fails and there is no stream to drain. *)
Lemma write_read_empty_counterexample :
  ∃ store' store'',
    Write 1 (newStore 2) "1" (NewReader []) = Some (Returned None, store') ∧
    docs (Collection store') = [] ∧
    Read store' "1" = (None, Some ErrNotFound, store'').
Proof. do 2 eexists. evaluate_each. Qed.

(** ** The empty write *)

Lemma find_rows_nil blobID ascending ds :
  find_rows blobID ascending ds = [] ↔ blob blobID ds = [].
Proof.
  unfold find_rows. split.
  - intros Hrows. apply Permutation_nil_r.
    destruct ascending; by rewrite <-Hrows, merge_sort_Permutation.
  - intros ->. by destruct ascending.
Qed.

(** C2, amended: [Write] of an entirely empty stream succeeds, upserts no
    segment and deletes every segment of the blob; afterwards the blob has
    no rows and [Read] and [Size] fail with [ErrNotFound], as for a blob
    never written. *)
Theorem write_empty_stream fuel store blobID :
  wf_docs (docs (Collection store)) → healthy (Collection store) →
  (0 < fuel)%nat →
  ∃ store' store1 store2,
    Write fuel store blobID (NewReader []) = Some (Returned None, store') ∧
    oplog (Collection store') =
      oplog (Collection store) ++ [DeleteGte blobID 0] ∧
    blob blobID (docs (Collection store')) = [] ∧
    Read store' blobID = (None, Some ErrNotFound, store1) ∧
    Size store' blobID = (0, Some ErrNotFound, store2).
Proof.
  intros Hwf Hc Hfuel.
  assert (len (@nil byte) < 2 ^ 64) as Hlen by done.
  pose proof (Write_bytes fuel store blobID [] Hc Hfuel Hlen) as Hw.
  destruct (Write_bytes_rows fuel store blobID [])
    as (store' & Hw' & _ & Hc' & _ & Hrows & Hdesc & _); [done..|].
  exists store'. do 2 eexists. split_and!.
  - done.
  - rewrite Hw in Hw'. by injection Hw' as <-.
  - by apply (find_rows_nil blobID true).
  - by rewrite Read_healthy, Hrows.
  - by rewrite Size_healthy, Hdesc.
Qed.

Lemma write_empty_stream_witness :
  ∃ store' store1 store2,
    Write 1 (newStore 2) "1" (NewReader []) = Some (Returned None, store') ∧
    oplog (Collection store') = [] ++ [DeleteGte "1" 0] ∧
    blob "1" (docs (Collection store')) = [] ∧
    Read store' "1" = (None, Some ErrNotFound, store1) ∧
    Size store' "1" = (0, Some ErrNotFound, store2).
Proof.
  apply (write_empty_stream 1 (newStore 2) "1").
  - split; constructor.
  - reflexivity.
  - lia.
Defined.

(** C2 as stated fails: the empty write persists no segment at all, and
    the blob it leaves reads as not found. *)
Lemma write_empty_counterexample :
  ∃ store' store'',
    Write 1 (newStore 2) "1" (NewReader []) = Some (Returned None, store') ∧
    filter (λ d, N d = 0 ∧ Start d = 0) (docs (Collection store')) = [] ∧
    Read store' "1" = (None, Some ErrNotFound, store'').
Proof. do 2 eexists. evaluate_each. Qed.

(** The [nil] reader: the first read panics, before any round trip. *)
Lemma Write_nil_reader fuel store blobID :
  Write fuel store blobID None = Some (Panicked, store).
Proof. done. Qed.

(** ** Size *)

Lemma blob_same_seq blobID ds s1 s2 :
  NoDup (key <$> ds) → s1 ∈ blob blobID ds → s2 ∈ blob blobID ds →
  Seq s1 = Seq s2 → s1 = s2.
Proof.
  unfold blob. intros Hnd [Hid1 H1]%list_elem_of_filter
    [Hid2 H2]%list_elem_of_filter Hseq.
  apply (NoDup_fmap_inj_on key ds); [done..|]. unfold key. congruence.
Qed.

Lemma find_rows_elem blobID ascending ds s :
  s ∈ find_rows blobID ascending ds ↔ s ∈ blob blobID ds.
Proof. unfold find_rows. destruct ascending; by rewrite merge_sort_Permutation. Qed.

Lemma find_rows_sorted blobID ds :
  StronglySorted seq_le (find_rows blobID true ds) ∧
  StronglySorted seq_ge (find_rows blobID false ds).
Proof. unfold find_rows. split; apply StronglySorted_merge_sort; apply _. Qed.

(** On a store that answers and respects the unique index, [Size] is the
    [start + n] of the row with the highest [seq], whatever the other rows
    hold. *)
Lemma Size_highest_seq store blobID s :
  wf_docs (docs (Collection store)) → healthy (Collection store) →
  s ∈ docs (Collection store) → ID s = blobID →
  (∀ d, d ∈ docs (Collection store) → ID d = blobID → Seq d ≤ Seq s) →
  let c := Collection store in
  Size store blobID =
    (int64 (uint64 (Start s + N s)), None,
     with_collection store
       (mkCollection (docs c) (oplog c ++ [Find blobID false]) [])).
Proof.
  intros [Hnd _] Hc Hs Hid Hmax. rewrite Size_healthy by done. cbv zeta.
  assert (s ∈ find_rows blobID false (docs (Collection store))) as Hrow.
  { apply find_rows_elem. unfold blob. by apply list_elem_of_filter. }
  destruct (find_rows_sorted blobID (docs (Collection store))) as [_ Hsorted].
  destruct (find_rows blobID false _) as [|h rest] eqn:Hrows; [by inv Hrow|].
  assert (h ∈ blob blobID (docs (Collection store))) as Hh.
  { apply (find_rows_elem blobID false). rewrite Hrows. by left. }
  assert (h = s) as ->; [|done].
  apply (blob_same_seq blobID (docs (Collection store))); [done..| |].
  { unfold blob. by apply list_elem_of_filter. }
  apply list_elem_of_filter in Hh as [Hidh Hin].
  specialize (Hmax h Hin Hidh).
  apply elem_of_cons in Hrow as [->|Hrest]; [done|].
  apply StronglySorted_inv in Hsorted as [_ Hall].
  eapply Forall_forall in Hall; [|done]. unfold seq_ge in Hall. lia.
Qed.

Lemma segments_last blobID chunk b s :
  0 < chunk → last (segments blobID chunk b) = Some s → Start s + N s = len b.
Proof.
  intros Hchunk Hlast.
  apply (segments_from_last blobID (Z.to_nat chunk)) in Hlast; lia.
Qed.

Lemma Size_segments store blobID chunk b :
  0 < chunk → healthy (Collection store) → fits_slice b →
  find_rows blobID false (docs (Collection store)) =
    reverse (segments blobID chunk b) →
  let c := Collection store in
  let store' :=
    with_collection store
      (mkCollection (docs c) (oplog c ++ [Find blobID false]) []) in
  match b with
  | [] => Size store blobID = (0, Some ErrNotFound, store')
  | _ =>
      ∃ s, last (segments blobID chunk b) = Some s ∧
        Start s + N s = len b ∧
        Size store blobID = (Start s + N s, None, store')
  end.
Proof.
  intros Hchunk Hc Hfits Hrows. rewrite Size_healthy, Hrows by done.
  destruct b as [|x b]; [done|].
  destruct (reverse (segments blobID chunk (x :: b))) as [|s rest] eqn:Hrev.
  { apply (f_equal reverse) in Hrev. rewrite reverse_involutive in Hrev.
    by apply segments_nil_iff in Hrev. }
  assert (last (segments blobID chunk (x :: b)) = Some s) as Hlast
    by (by rewrite <-head_reverse, Hrev).
  pose proof (segments_last _ _ _ _ Hchunk Hlast) as Hsum.
  exists s. split_and!; [done..|].
  unfold fits_slice, MaxInt64 in Hfits.
  assert (0 ≤ len (x :: b)) by (unfold len; lia).
  rewrite Hsum, uint64_small, int64_small by (unfold MaxInt64; lia). done.
Qed.

(** C4, amended: after [Write] of a non-empty byte sequence [b] that fits
    a Go slice, [Size] returns [len b]: with one sorted [Find] it takes the
    row of the highest [seq] and returns its [start + n].  After [Write] of
    the empty sequence it fails with [ErrNotFound].  On any collection that
    respects the unique index the result is the [start + n] of the row of
    the highest [seq], converted as the code converts it, whatever the
    other rows of the blob hold. *)
Theorem size_after_write store blobID :
  wf_docs (docs (Collection store)) → healthy (Collection store) →
  (∀ fuel b,
     (length b < fuel)%nat → fits_slice b →
     ∃ store',
       Write fuel store blobID (NewReader b) = Some (Returned None, store') ∧
       let c' := Collection store' in
       let store'' :=
         with_collection store'
           (mkCollection (docs c') (oplog c' ++ [Find blobID false]) []) in
       match b with
       | [] => Size store' blobID = (0, Some ErrNotFound, store'')
       | _ =>
           ∃ s, s ∈ docs c' ∧ ID s = blobID ∧
             (∀ d, d ∈ docs c' → ID d = blobID → Seq d ≤ Seq s) ∧
             Size store' blobID = (Start s + N s, None, store'') ∧
             Start s + N s = len b
       end) ∧
  (∀ s,
     s ∈ docs (Collection store) → ID s = blobID →
     (∀ d, d ∈ docs (Collection store) → ID d = blobID → Seq d ≤ Seq s) →
     let c := Collection store in
     Size store blobID =
       (int64 (uint64 (Start s + N s)), None,
        with_collection store
          (mkCollection (docs c) (oplog c ++ [Find blobID false]) []))).
Proof.
  intros Hwf Hc. split; [|intros s; by apply Size_highest_seq].
  intros fuel b Hfuel Hfits.
  destruct (Write_bytes_rows fuel store blobID b)
    as (store' & Hw & _ & Hc' & _ & Hrows & Hdesc & _); [done..| |].
  { unfold fits_slice, MaxInt64 in Hfits. lia. }
  exists store'. split; [done|]. cbv zeta.
  pose proof (Size_segments store' blobID (effective_chunk_size store) b
    (effective_chunk_size_pos store) Hc' Hfits Hdesc) as Hsize.
  destruct b as [|x b]; [done|].
  destruct Hsize as (s & Hlast & Hsum & Hsize).
  set (segs := segments blobID (effective_chunk_size store) (x :: b)) in *.
  assert (∀ d, d ∈ docs (Collection store') ∧ ID d = blobID ↔ d ∈ segs)
    as Hmem.
  { intros d. rewrite <-Hrows. unfold find_rows, blob.
    rewrite merge_sort_Permutation, list_elem_of_filter. tauto. }
  assert (s ∈ segs) as Hs.
  { apply last_Some in Hlast as [l' ->]. apply elem_of_app. right. by left. }
  exists s. split_and!; [by apply Hmem|by apply Hmem| |done..].
  intros d Hd Hid. assert (d ∈ segs) as Hin by (by apply Hmem).
  pose proof (run_sorted blobID 0 segs (segments_run _ _ _)) as Hsorted.
  apply last_Some in Hlast as [l' Hl']. rewrite Hl' in Hin, Hsorted.
  apply elem_of_app in Hin as [Hin| ->%list_elem_of_singleton]; [|done].
  apply StronglySorted_app in Hsorted as (Hle & _ & _).
  apply Hle; [done|by left].
Qed.

Lemma size_after_write_witness :
  (∃ store',
     Write 10 (newStore 2) "1" (NewReader abcde) = Some (Returned None, store') ∧
     ∃ s, s ∈ docs (Collection store') ∧ ID s = "1" ∧
       (∀ d, d ∈ docs (Collection store') → ID d = "1" → Seq d ≤ Seq s) ∧
       Size store' "1" =
         (Start s + N s, None,
          with_collection store'
            (mkCollection (docs (Collection store'))
               (oplog (Collection store') ++ [Find "1" false]) [])) ∧
       Start s + N s = 5) ∧
  (Size
     (mkStore
        (mkCollection
           [mkSegment "1" 0 [x7a] 0 1; mkSegment "1" 1 [x63; x64] 2 2;
            mkSegment "1" 2 [x65] 4 1] [] []) 2 false) "1").1 =
    (int64 (uint64 (4 + 1)), None).
Proof.
  split.
  - apply (size_after_write (newStore 2) "1"); [split; constructor|done| |].
    + simpl. lia.
    + by vm_compute.
  - refine (f_equal fst (proj2 (size_after_write
      (mkStore
         (mkCollection
            [mkSegment "1" 0 [x7a] 0 1; mkSegment "1" 1 [x63; x64] 2 2;
             mkSegment "1" 2 [x65] 4 1] [] []) 2 false) "1" _ _)
      (mkSegment "1" 2 [x65] 4 1) _ _ _)).
    + unfold wf_docs. apply (bool_decide_unpack _). by vm_compute.
    + reflexivity.
    + cbn [Collection docs]. do 2 right. left.
    + reflexivity.
    + cbn [Collection docs]. intros d Hd _.
      repeat (apply elem_of_cons in Hd as [->|Hd]; [cbn; lia|]).
      by apply elem_of_nil in Hd.
Defined.

(** C4 as stated fails on the empty byte sequence: [Size] does not return
    0 but fails with [ErrNotFound]. *)
Lemma size_empty_counterexample :
  ∃ store' store'',
    Write 1 (newStore 2) "1" (NewReader []) = Some (Returned None, store') ∧
    Size store' "1" = (0, Some ErrNotFound, store'').
Proof. do 2 eexists. evaluate_each. Qed.

(** ** Truncation *)

Lemma run_Seq_lt blobID segs d :
  run blobID 0 segs → d ∈ segs → Seq d < len segs.
Proof.
  intros Hrun (i & Hi)%list_elem_of_lookup.
  destruct (Hrun i d Hi) as [_ ->]. apply lookup_lt_Some in Hi.
  unfold len. lia.
Qed.

(** C3, amended: after [Write] of [b1] and then of [b2] to the same blob,
    the rows of the blob are exactly the segments of [b2], no row has a
    [seq] at or beyond their number, and for a non-empty [b2] [Read] drains
    to [b2] and [Size] returns [len b2]; for the empty [b2] both fail with
    [ErrNotFound]. *)
Theorem overwrite_truncates fuel1 fuel2 store blobID b1 b2 :
  wf_docs (docs (Collection store)) → healthy (Collection store) →
  (length b1 < fuel1)%nat → (length b2 < fuel2)%nat →
  fits_slice b1 → fits_slice b2 →
  ∃ store1 store2 store3 store4,
    Write fuel1 store blobID (NewReader b1) = Some (Returned None, store1) ∧
    Write fuel2 store1 blobID (NewReader b2) = Some (Returned None, store2) ∧
    let segs := segments blobID (effective_chunk_size store) b2 in
    find_rows blobID true (docs (Collection store2)) = segs ∧
    (∀ d, d ∈ docs (Collection store2) → ID d = blobID → Seq d < len segs) ∧
    match b2 with
    | [] =>
        Read store2 blobID = (None, Some ErrNotFound, store3) ∧
        Size store2 blobID = (0, Some ErrNotFound, store4)
    | _ =>
        (∃ rd, Read store2 blobID = (Some rd, None, store3) ∧ ReadAll rd = b2) ∧
        Size store2 blobID = (len b2, None, store4)
    end.
Proof.
  intros Hwf Hc Hfuel1 Hfuel2 Hfits1 Hfits2.
  assert (∀ b, fits_slice b → len b < 2 ^ 64) as Hlt
    by (unfold fits_slice, MaxInt64; intros; lia).
  destruct (Write_bytes_rows fuel1 store blobID b1)
    as (store1 & Hw1 & Hchunk1 & Hc1 & Hwf1 & _); [by auto..|].
  destruct (Write_bytes_rows fuel2 store1 blobID b2)
    as (store2 & Hw2 & _ & Hc2 & _ & Hrows & Hdesc & _); [by auto..|].
  assert (effective_chunk_size store1 = effective_chunk_size store) as Heff
    by (unfold effective_chunk_size; by rewrite Hchunk1).
  rewrite Heff in Hrows, Hdesc.
  pose proof (effective_chunk_size_pos store) as Hpos.
  destruct (Read_segments store2 blobID _ b2 Hpos Hc2 Hrows) as [store3 Hread].
  pose proof (Size_segments store2 blobID _ b2 Hpos Hc2 Hfits2 Hdesc) as Hsize.
  exists store1, store2, store3. eexists.
  split; [done|]. split; [done|]. cbv zeta. split; [done|]. split.
  - intros d Hd Hid. apply (run_Seq_lt blobID); [apply segments_run|].
    rewrite <-Hrows. unfold find_rows, blob.
    rewrite merge_sort_Permutation, list_elem_of_filter. done.
  - destruct b2 as [|x b2]; [done|]. split; [done|].
    destruct Hsize as (s & _ & Hsum & ->). by rewrite Hsum.
Qed.

Lemma overwrite_truncates_witness :
  ∃ store1 store2 store3 store4,
    Write 10 (newStore 2) "1" (NewReader abcde) = Some (Returned None, store1) ∧
    Write 10 store1 "1" (NewReader [x7a]) = Some (Returned None, store2) ∧
    find_rows "1" true (docs (Collection store2)) = segments "1" 2 [x7a] ∧
    (∀ d, d ∈ docs (Collection store2) → ID d = "1" →
       Seq d < len (segments "1" 2 [x7a])) ∧
    (∃ rd, Read store2 "1" = (Some rd, None, store3) ∧ ReadAll rd = [x7a]) ∧
    Size store2 "1" = (1, None, store4).
Proof.
  apply (overwrite_truncates 10 10 (newStore 2) "1" abcde [x7a]).
  - split; constructor.
  - reflexivity.
  - simpl. lia.
  - simpl. lia.
  - by vm_compute.
  - by vm_compute.
Defined.

(** C3 as stated fails when the shorter content is empty: nothing can be
    read back and [Size] does not return 0. *)
Lemma overwrite_empty_counterexample :
  ∃ store1 store2 store3 store4,
    Write 10 (newStore 2) "1" (NewReader abcde) = Some (Returned None, store1) ∧
    Write 10 store1 "1" (NewReader []) = Some (Returned None, store2) ∧
    Read store2 "1" = (None, Some ErrNotFound, store3) ∧
    Size store2 "1" = (0, Some ErrNotFound, store4).
Proof. do 4 eexists. evaluate_each. Qed.

(** ** Segment boundaries *)

Lemma segments_from_lengths blobID chunk fuel seq start b (k r : nat) :
  (0 < chunk)%nat → (length b ≤ fuel)%nat →
  length b = (k * chunk + r)%nat → (r < chunk)%nat →
  (length ∘ Data) <$> segments_from fuel blobID seq start chunk b =
    replicate k chunk ++ (if decide (r = 0%nat) then [] else [r]).
Proof.
  intros Hchunk. revert fuel seq start b.
  induction k as [|k IH]; intros fuel seq start b Hfuel Hlen Hr.
  - destruct b as [|x b].
    + rewrite segments_from_nil. simpl in Hlen. by rewrite decide_True by lia.
    + destruct fuel as [|fuel]; [simpl in Hfuel; lia|].
      cbn [segments_from]. rewrite drop_ge by lia.
      rewrite segments_from_nil, take_ge by lia.
      rewrite decide_False by (simpl in Hlen; lia).
      cbn. do 2 f_equal. simpl in Hlen. lia.
  - destruct b as [|x b]; [simpl in Hlen; lia|].
    destruct fuel as [|fuel]; [simpl in Hfuel; lia|].
    cbn [segments_from replicate]. rewrite fmap_cons. cbn [compose Data app].
    f_equal.
    + rewrite length_take. lia.
    + apply IH; rewrite ?length_drop; simpl in *; lia.
Qed.

(** C5: with chunk size [C], writing [k * C] bytes leaves exactly [k]
    segments of [C] bytes each, and writing [k * C + r] bytes with
    [0 < r < C] leaves [k + 1] segments, the last of [r] bytes and the
    others of [C] bytes. *)
Theorem segment_boundaries fuel store blobID b (k : nat) :
  wf_docs (docs (Collection store)) → healthy (Collection store) →
  (length b < fuel)%nat → fits_slice b →
  0 < ChunkSize store → (1 ≤ k)%nat →
  ∃ store',
    Write fuel store blobID (NewReader b) = Some (Returned None, store') ∧
    let rows := find_rows blobID true (docs (Collection store')) in
    let C := ChunkSize store in
    Forall (λ s, N s = len (Data s)) rows ∧
    (len b = Z.of_nat k * C → N <$> rows = replicate k C) ∧
    (∀ r, 0 < r < C → len b = Z.of_nat k * C + r →
       N <$> rows = replicate k C ++ [r]).
Proof.
  intros Hwf Hc Hfuel Hfits Hchunk Hk.
  destruct (Write_bytes_rows fuel store blobID b)
    as (store' & Hw & _ & _ & _ & Hrows & _); [done..| |].
  { unfold fits_slice, MaxInt64 in Hfits. lia. }
  exists store'. split; [done|]. cbv zeta. rewrite Hrows.
  assert (effective_chunk_size store = ChunkSize store) as ->
    by (unfold effective_chunk_size; by rewrite decide_False by lia).
  set (C := ChunkSize store) in *. unfold segments.
  assert (Forall (λ s, N s = len (Data s))
    (segments_from (length b) blobID 0 0 (Z.to_nat C) b)) as Hn.
  { eapply Forall_impl;
      [apply (segments_from_payload blobID (Z.to_nat C)); lia|].
    by intros s [? _]. }
  assert (∀ r : nat, (r < Z.to_nat C)%nat →
    length b = (k * Z.to_nat C + r)%nat →
    N <$> segments_from (length b) blobID 0 0 (Z.to_nat C) b =
      replicate k C ++ (if decide (r = 0%nat) then [] else [Z.of_nat r]))
    as Hshape.
  { intros r Hr Hlen.
    pose proof (segments_from_lengths blobID (Z.to_nat C) (length b) 0 0 b k r)
      as Hl.
    apply (f_equal (fmap Z.of_nat)) in Hl; [|lia..].
    rewrite <-list_fmap_compose, fmap_app, fmap_replicate in Hl.
    rewrite Z2Nat.id in Hl by lia.
    replace (Z.of_nat <$> (if decide (r = 0%nat) then [] else [r]))
      with (if decide (r = 0%nat) then [] else [Z.of_nat r]) in Hl
      by (by case_decide).
    rewrite <-Hl. apply Forall_fmap_ext. eapply Forall_impl; [exact Hn|].
    intros s Hs. by rewrite Hs. }
  split_and!; [done| |].
  - intros Hlen. rewrite (Hshape 0%nat) by (unfold len in *; nia).
    by rewrite app_nil_r.
  - intros r Hr Hlen.
    rewrite (Hshape (Z.to_nat r)) by (unfold len in *; nia).
    rewrite decide_False by lia. by rewrite Z2Nat.id by lia.
Qed.

Lemma segment_boundaries_witness :
  ∃ store',
    Write 10 (newStore 2) "1" (NewReader abcde) = Some (Returned None, store') ∧
    let rows := find_rows "1" true (docs (Collection store')) in
    Forall (λ s, N s = len (Data s)) rows ∧
    (len abcde = Z.of_nat 2 * 2 → N <$> rows = replicate 2 2) ∧
    (∀ r, 0 < r < 2 → len abcde = Z.of_nat 2 * 2 + r →
       N <$> rows = replicate 2 2 ++ [r]).
Proof.
  apply (segment_boundaries 10 (newStore 2) "1" abcde 2).
  - split; constructor.
  - reflexivity.
  - simpl. lia.
  - by vm_compute.
  - reflexivity.
  - lia.
Defined.

(** The scenario of the test: 5005 bytes in chunks of 1024. *)
Example segments_5005 :
  (N <$> segments "1" 1024 (replicate (Z.to_nat 5005) x00)) = [1024; 1024; 1024; 1024; 909].
Proof. vm_compute. reflexivity. Qed.

(** ** Not found *)

Lemma roundtrip_docs op c :
  docs (roundtrip op c).2 = docs c ∨
  ((roundtrip op c).1 = None ∧ docs (roundtrip op c).2 = apply_op op (docs c)).
Proof. unfold roundtrip. destruct (faults c) as [|[msg|] fs]; simpl; auto. Qed.

Lemma roundtrip_error op c e :
  (roundtrip op c).1 = Some e → ∃ msg, e = ErrOther msg.
Proof.
  unfold roundtrip. destruct (faults c) as [|[msg|] fs]; simpl; try done.
  intros [= <-]. by exists msg.
Qed.

(** C6: [Read] and [Size] fail with [ErrNotFound] exactly when the blob
    has no segment, as is the case for a blob never written and for one
    removed after it was written; [Read] then returns no stream, and with a
    segment present neither call fails. *)
Theorem not_found_iff store blobID :
  healthy (Collection store) →
  let absent := blob blobID (docs (Collection store)) = [] in
  (absent ↔ (Read store blobID).1 = (None, Some ErrNotFound)) ∧
  (absent ↔ (Size store blobID).1 = (0, Some ErrNotFound)) ∧
  (¬ absent →
     (Read store blobID).1.2 = None ∧ (Size store blobID).1.2 = None) ∧
  (∀ blobIDs, blobID ∈ blobIDs →
     let store' := (Remove store blobIDs).2 in
     (Read store' blobID).1 = (None, Some ErrNotFound) ∧
     (Size store' blobID).1 = (0, Some ErrNotFound)).
Proof.
  intros Hc. cbv zeta.
  assert (∀ st, healthy (Collection st) →
    (blob blobID (docs (Collection st)) = [] ↔
       (Read st blobID).1 = (None, Some ErrNotFound)) ∧
    (blob blobID (docs (Collection st)) = [] ↔
       (Size st blobID).1 = (0, Some ErrNotFound)) ∧
    (blob blobID (docs (Collection st)) ≠ [] →
       (Read st blobID).1.2 = None ∧ (Size st blobID).1.2 = None)) as Hiff.
  { intros st Hst. rewrite Read_healthy, Size_healthy by done. cbv zeta.
    pose proof (find_rows_nil blobID true (docs (Collection st))) as Ht.
    pose proof (find_rows_nil blobID false (docs (Collection st))) as Hf.
    destruct (find_rows blobID true _), (find_rows blobID false _);
      simpl; split_and!; try split; try done; intuition congruence. }
  destruct (Hiff store Hc) as (Hread & Hsize & Hpresent).
  split_and!; [done..|].
  intros blobIDs Hin. destruct blobIDs as [|i ids]; [by inv Hin|].
  assert (healthy (Collection (Remove store (i :: ids)).2) ∧
    blob blobID (docs (Collection (Remove store (i :: ids)).2)) = [])
    as [Hc' Habsent].
  { unfold Remove. rewrite roundtrip_healthy by done. split; [done|].
    cbn. unfold blob. rewrite list_filter_filter. apply filter_none.
    apply Forall_forall. intros d _ [-> Hout]. done. }
  destruct (Hiff _ Hc') as (Hread' & Hsize' & _).
  split; [by apply Hread'|by apply Hsize'].
Qed.

Lemma not_found_iff_witness :
  (blob "1" (docs emptyCollection) = [] ↔
     (Read (newStore 2) "1").1 = (None, Some ErrNotFound)) ∧
  (blob "1" (docs emptyCollection) = [] ↔
     (Size (newStore 2) "1").1 = (0, Some ErrNotFound)) ∧
  (¬ blob "1" (docs emptyCollection) = [] →
     (Read (newStore 2) "1").1.2 = None ∧ (Size (newStore 2) "1").1.2 = None) ∧
  (∀ blobIDs, "1" ∈ blobIDs →
     (Read (Remove (newStore 2) blobIDs).2 "1").1 = (None, Some ErrNotFound) ∧
     (Size (Remove (newStore 2) blobIDs).2 "1").1 = (0, Some ErrNotFound)).
Proof. apply (not_found_iff (newStore 2) "1"). reflexivity. Defined.

Lemma roundtrip_Find blobID ascending c :
  docs (roundtrip (Find blobID ascending) c).2 = docs c ∧
  (roundtrip (Find blobID ascending) c).1 ≠ Some ErrNotFound.
Proof. unfold roundtrip. by destruct (faults c) as [|[msg|] fs]. Qed.

(** A failure of the store is never reported as [ErrNotFound]: whatever
    the store does, [ErrNotFound] from [Read] or [Size] means the blob has
    no row. *)
Lemma not_found_distinct store blobID :
  (Read store blobID).1.2 = Some ErrNotFound ∨
  (Size store blobID).1.2 = Some ErrNotFound →
  blob blobID (docs (Collection store)) = [].
Proof.
  unfold Read, Size. intros [Hnf|Hnf]; revert Hnf.
  - destruct (roundtrip_Find blobID true (Collection store)) as [Hdocs Herr].
    destruct (roundtrip (Find blobID true) _) as [[e|] c]; cbn -[find_rows] in *.
    + intros [= ->]. done.
    + rewrite Hdocs. destruct (find_rows blobID true _) eqn:Hrows; [|done].
      by apply find_rows_nil in Hrows.
  - destruct (roundtrip_Find blobID false (Collection store)) as [Hdocs Herr].
    destruct (roundtrip (Find blobID false) _) as [[e|] c]; cbn -[find_rows] in *.
    + intros [= ->]. done.
    + rewrite Hdocs. destruct (find_rows blobID false _) eqn:Hrows; [|done].
      by apply find_rows_nil in Hrows.
Qed.

(** ** Remove *)

(** C7: [Remove] deletes every segment of every given blob in one round
    trip and leaves the other blobs alone; it succeeds whether or not the
    blobs have segments; given no blob it returns [nil] without a round
    trip, even on a store that would fail one. *)
Theorem remove_blobs store blobIDs :
  blobIDs = [] ∨ healthy (Collection store) →
  ∃ store',
    Remove store blobIDs = (None, store') ∧
    (blobIDs = [] → store' = store) ∧
    (blobIDs ≠ [] →
       oplog (Collection store') =
         oplog (Collection store) ++ [DeleteIn blobIDs]) ∧
    (∀ blobID, blobID ∈ blobIDs →
       blob blobID (docs (Collection store')) = []) ∧
    (∀ blobID, blobID ∉ blobIDs →
       blob blobID (docs (Collection store')) =
       blob blobID (docs (Collection store))).
Proof.
  intros Hok. destruct blobIDs as [|i ids].
  - exists store. split_and!; try done. intros blobID Hin. by inv Hin.
  - destruct Hok as [|Hc]; [done|]. eexists.
    unfold Remove. rewrite roundtrip_healthy by done.
    split_and!; try done; cbn; intros blobID Hin; unfold blob;
      rewrite list_filter_filter.
    + apply filter_none, Forall_forall. intros d _ [-> Hout]. done.
    + apply list_filter_iff. intros d. intuition congruence.
Qed.

Lemma remove_blobs_witness :
  ∃ store',
    Remove (newStore 2) ["1"; "2"] = (None, store') ∧
    (["1"; "2"] = [] → store' = newStore 2) ∧
    (["1"; "2"] ≠ [] →
       oplog (Collection store') =
         oplog (Collection (newStore 2)) ++ [DeleteIn ["1"; "2"]]) ∧
    (∀ blobID, blobID ∈ ["1"; "2"] →
       blob blobID (docs (Collection store')) = []) ∧
    (∀ blobID, blobID ∉ ["1"; "2"] →
       blob blobID (docs (Collection store')) =
       blob blobID (docs (Collection (newStore 2)))).
Proof. apply (remove_blobs (newStore 2) ["1"; "2"]). right. reflexivity. Defined.

(** Removing no blob on a store whose next round trip would fail. *)
Example remove_nothing_offline :
  Remove (mkStore (mkCollection [] [] [Some "offline"]) 2 false) [] =
    (None, mkStore (mkCollection [] [] [Some "offline"]) 2 false).
Proof. reflexivity. Qed.

(** ** The loop of [Write] on any stream and any store *)

Lemma ReadAtLeast_empty_buffer r :
  ReadAtLeast r [] (len (@nil byte)) = (0, None, [], r).
Proof. done. Qed.

(** One iteration that reads a chunk: a full one, or the rest of a stream
    that ends with [EOF], with [ErrUnexpectedEOF] or with an error that
    wraps it. *)
Lemma write_loop_chunk fuel c r seg start :
  pending r ≠ [] → (0 < length (Data seg))%nat →
  (length (Data seg) ≤ length (pending r))%nat ∨
    final r = EOF ∨ errors_Is (Some (final r)) ErrUnexpectedEOF = true →
  0 ≤ Seq seg → Seq seg + len (pending r) < 2 ^ 64 →
  0 ≤ start → start + len (pending r) < 2 ^ 64 →
  let payload := take (length (Data seg)) (pending r) in
  let s := mkSegment (ID seg) (Seq seg) payload start (len payload) in
  write_loop (S fuel) c r seg start =
    match roundtrip (replace_op s) c with
    | (Some e, c') => Some (Some e, c')
    | (None, c') =>
        write_loop fuel c'
          (mkReader (drop (length (Data seg)) (pending r)) (final r))
          (mkSegment (ID seg) (Seq seg + 1) payload start (len payload))
          (start + len payload)
    end.
Proof.
  destruct r as [b e]. cbn [pending final].
  intros Hb Hbuf Hcase Hseq Hseqs Hstart Hstarts.
  assert (len (take (length (Data seg)) b) =
    len b `min` Z.of_nat (length (Data seg))) as Hlen
    by (unfold len; rewrite length_take; lia).
  assert (1 ≤ len b) by (destruct b; [done|unfold len; simpl; lia]).
  cbn [write_loop].
  destruct (decide (length (Data seg) ≤ length b)%nat) as [Hfull|Hpart].
  - rewrite ReadAtLeast_full by lia. rewrite !errors_Is_nil.
    unfold replace_op. cbn.
    rewrite !uint64_small by lia. done.
  - rewrite ReadAtLeast_short by (done || lia).
    assert (errors_Is (Some (if decide (e = EOF) then ErrUnexpectedEOF else e))
      ErrUnexpectedEOF = true) as ->.
    { case_decide; [done|]. destruct Hcase as [?|[?|?]]; [lia|done..]. }
    replace (Z.to_nat (len b)) with (length b) by (unfold len; lia).
    rewrite take_app_length. unfold replace_op. cbn.
    rewrite (take_ge b), (drop_ge b) by lia.
    rewrite !uint64_small by lia. done.
Qed.

(** Once the buffer is empty the loop neither ends nor fails by itself: it
    upserts empty segments until the store fails. *)
Lemma write_loop_empty_buffer fuel c r seg start c' :
  Data seg = [] → write_loop fuel c r seg start ≠ Some (None, c').
Proof.
  revert c seg start. induction fuel as [|fuel IH]; intros c seg start Hdata;
    [done|].
  cbn [write_loop]. rewrite Hdata, ReadAtLeast_empty_buffer.
  rewrite !errors_Is_nil.
  destruct (roundtrip _ c) as [[e|] c1]; [done|]. by apply IH.
Qed.

Lemma roundtrip_success op c c' :
  roundtrip op c = (None, c') → docs c' = apply_op op (docs c).
Proof.
  unfold roundtrip. by destruct (faults c) as [|[msg|] fs]; intros [= <-].
Qed.

(** A loop that ends without an error has read a stream that ended with
    [EOF] or with an error that wraps it, upserted the segments of the bytes
    it kept, which are all the bytes of a stream that ended with [EOF]
    itself, and truncated the tail. *)
Lemma write_loop_completed fuel c r seg start chunk c' :
  (0 < chunk)%nat →
  length (Data seg) = chunk ∨ (pending r = [] ∧ (0 < length (Data seg))%nat) →
  0 ≤ Seq seg → Seq seg + len (pending r) < 2 ^ 64 →
  0 ≤ start → start + len (pending r) < 2 ^ 64 →
  write_loop fuel c r seg start = Some (None, c') →
  ∃ kept,
    let segs :=
      segments_from (length kept) (ID seg) (Seq seg) start chunk kept in
    (final r = EOF → kept = pending r) ∧
    (length kept ≤ length (pending r))%nat ∧
    errors_Is (Some (final r)) EOF = true ∧
    docs c' =
      apply_op (DeleteGte (ID seg) (Seq seg + len segs))
        (persist_all segs (docs c)).
Proof.
  intros Hchunk. revert c r seg start.
  induction fuel as [|fuel IH]; intros c [b e] seg start Hbuf Hseq Hseqs
    Hstart Hstarts; [done|].
  cbn [pending final] in *.
  assert (errors_Is (Some e) ErrUnexpectedEOF = false →
    (if errors_Is (Some e) EOF
     then Some (roundtrip (DeleteGte (ID seg) (Seq seg)) c)
     else Some (Some e, c)) = Some (None, c') →
    e ≠ EOF ∨ b = [] →
    ∃ kept,
      let segs :=
        segments_from (length kept) (ID seg) (Seq seg) start chunk kept in
      (e = EOF → kept = b) ∧ (length kept ≤ length b)%nat ∧
      errors_Is (Some e) EOF = true ∧
      docs c' =
        apply_op (DeleteGte (ID seg) (Seq seg + len segs))
          (persist_all segs (docs c))) as Hbreak.
  { intros _. destruct (errors_Is (Some e) EOF); [|done].
    intros [= Hdel%roundtrip_success] Hb. exists [].
    split_and!; [by destruct Hb|simpl; lia|done|].
    cbn. by rewrite Z.add_0_r. }
  destruct b as [|x b'].
  - (* the stream is at its end *)
    cbn [write_loop]. rewrite ReadAtLeast_end by (destruct Hbuf; lia).
    destruct (errors_Is (Some e) ErrUnexpectedEOF) eqn:Hcut.
    + cbn [Z.to_nat]. rewrite take_0.
      destruct (roundtrip (ReplaceOne _ _ _) c) as [[e1|] c1]; [done|].
      intros Hloop. by apply write_loop_empty_buffer in Hloop.
    + intros Hloop. apply Hbreak; auto.
  - destruct Hbuf as [Hbuf|[? _]]; [|done].
    set (b := x :: b') in *.
    assert (1 ≤ len b) as Hb by (unfold len, b; simpl; lia).
    destruct (decide ((length (Data seg) ≤ length b)%nat ∨
      e = EOF ∨ errors_Is (Some e) ErrUnexpectedEOF = true)) as [Hcase|Hcase].
    + rewrite write_loop_chunk; cbn [pending final]; try done; try lia.
      rewrite Hbuf.
      assert (len (take chunk b) = len b `min` Z.of_nat chunk) as Hlen
        by (unfold len; rewrite length_take; lia).
      assert (len (drop chunk b) = len b - len (take chunk b)) as Hrest
        by (unfold len; rewrite length_drop, length_take; lia).
      destruct (roundtrip (replace_op _) c) as [[e1|] c1] eqn:Hrt; [done|].
      apply roundtrip_success in Hrt. cbn [replace_op ID Seq apply_op] in Hrt.
      intros Hloop. apply IH in Hloop; cbn [ID Seq Data pending final];
        try lia.
      * cbn [ID Seq Data pending final] in Hloop.
        destruct Hloop as (kept & Heof & Hkept & He & Hdocs).
        rewrite length_drop in Hkept.
        exists (take chunk b ++ kept).
        assert (take chunk (take chunk b ++ kept) = take chunk b ∧
          drop chunk (take chunk b ++ kept) = kept) as [Htake Hdrop].
        { destruct (decide (chunk ≤ length b)%nat).
          - split; [apply take_app_length'|apply drop_app_length'];
              rewrite length_take; lia.
          - assert (kept = []) as -> by (apply nil_length_inv; lia).
            rewrite app_nil_r, take_take, Nat.min_id.
            split; [done|]. apply drop_ge. rewrite length_take. lia. }
        assert (segments_from (length (take chunk b ++ kept)) (ID seg)
          (Seq seg) start chunk (take chunk b ++ kept) =
          mkSegment (ID seg) (Seq seg) (take chunk b) start (len (take chunk b))
          :: segments_from (length kept) (ID seg) (Seq seg + 1)
               (start + len (take chunk b)) chunk kept) as Hsegs.
        { destruct (take chunk b ++ kept) as [|y rest] eqn:Hkeep.
          { apply (f_equal length) in Hkeep. rewrite length_app in Hkeep.
            unfold len in Hlen, Hb. simpl in Hkeep. lia. }
          cbn [length segments_from]. rewrite Htake, Hdrop. f_equal.
          apply segments_from_fuel; [done| |lia].
          rewrite <-Hdrop, length_drop. simpl. lia. }
        cbv zeta. rewrite Hsegs. split_and!; [| |done|].
        -- intros ->. by rewrite Heof, take_drop.
        -- rewrite length_app, length_take. lia.
        -- rewrite Hdocs, Hrt, persist_all_cons. cbn [ID Seq].
           do 2 f_equal. unfold len. simpl. lia.
      * destruct (decide (chunk ≤ length b)%nat).
        -- left. rewrite length_take. lia.
        -- right. split; [by rewrite drop_ge by lia|].
           rewrite length_take. unfold b. simpl. lia.
    + (* a short read from a stream that does not end with one of the two *)
      cbn [write_loop].
      rewrite ReadAtLeast_short by (done || lia).
      rewrite decide_False by tauto.
      assert (errors_Is (Some e) ErrUnexpectedEOF = false) as Hcut
        by (destruct (errors_Is (Some e) ErrUnexpectedEOF); tauto).
      rewrite Hcut. intros Hloop. apply Hbreak; [done..|]. left. tauto.
Qed.

(** ** The layout invariant *)

Lemma contiguous_from_lookup start rows i s :
  contiguous_from start rows → rows !! i = Some s →
  Start s = start + len (concat (Data <$> take i rows)) ∧
  0 < N s ∧
  ∀ s', rows !! S i = Some s' → Start s' = Start s + N s.
Proof.
  revert start i. induction rows as [|a rows IH];
    intros start i Hrows Hi; [done|].
  destruct Hrows as (Hstart & Hn & Hpos & Hrest). destruct i as [|i].
  - injection Hi as <-. split_and!; [unfold len; simpl; lia|done|].
    intros s' Hs'. destruct rows as [|a' rows]; [done|].
    injection Hs' as <-. destruct Hrest as [-> _]. lia.
  - destruct (IH _ _ Hrest Hi) as (Hs & Hpos' & Hnext).
    split_and!; [|done..]. rewrite Hs, Hn. cbn [take fmap list_fmap concat].
    unfold len. rewrite length_app. lia.
Qed.

Lemma contiguous_from_rows rows : contiguous_from 0 rows → contiguous_rows rows.
Proof.
  intros Hrows i s Hi.
  destruct (contiguous_from_lookup 0 rows i s Hrows Hi) as (Hs & Hpos & Hnext).
  split; [lia|]. intros s' Hs'. specialize (Hnext s' Hs'). lia.
Qed.

Lemma contiguous_rows_nil : contiguous_rows [].
Proof. by intros i s ?. Qed.

Lemma contiguous_empty : contiguous (docs emptyCollection).
Proof. intros blobID. apply contiguous_rows_nil. Qed.

Lemma wf_docs_filter (P : blobSegment → Prop) `{∀ d, Decision (P d)} ds :
  wf_docs ds → wf_docs (filter P ds).
Proof.
  intros [Hnd Hall]. split; [by apply NoDup_fmap_filter|].
  apply Forall_forall. intros d [_ Hd]%list_elem_of_filter.
  by eapply Forall_forall in Hall.
Qed.


Lemma find_rows_DeleteIn blobID ascending blobIDs ds :
  find_rows blobID ascending (apply_op (DeleteIn blobIDs) ds) =
    if decide (blobID ∈ blobIDs) then [] else find_rows blobID ascending ds.
Proof.
  unfold find_rows, blob, apply_op. rewrite list_filter_filter.
  case_decide as Hin.
  - rewrite filter_none; [by destruct ascending|].
    apply Forall_forall. intros d _ [-> Hout]. done.
  - by rewrite (list_filter_iff _ (λ d, ID d = blobID))
      by (intros d; intuition congruence).
Qed.

Lemma Read_docs store blobID :
  docs (Collection (Read store blobID).2) = docs (Collection store).
Proof.
  unfold Read.
  destruct (roundtrip_Find blobID true (Collection store)) as [Hd _].
  destruct (roundtrip _ _) as [[e|] c]; cbn -[find_rows] in *; [done|].
  by destruct (find_rows _ _ _).
Qed.

Lemma Size_docs store blobID :
  docs (Collection (Size store blobID).2) = docs (Collection store).
Proof.
  unfold Size.
  destruct (roundtrip_Find blobID false (Collection store)) as [Hd _].
  destruct (roundtrip _ _) as [[e|] c]; cbn -[find_rows] in *; [done|].
  by destruct (find_rows _ _ _).
Qed.

(** What the loop of [Write] does to the collection however it ends: the
    unique index stays respected and the other blobs are not touched. *)
Lemma write_loop_frame fuel c r seg start out c' :
  wf_docs (docs c) → 0 ≤ Seq seg →
  write_loop fuel c r seg start = Some (out, c') →
  wf_docs (docs c') ∧
  ∀ blobID, blobID ≠ ID seg → blob blobID (docs c') = blob blobID (docs c).
Proof.
  revert c r seg start.
  induction fuel as [|fuel IH]; intros c r seg start Hwf Hseq; [done|].
  assert (∀ payload r1,
    match
      roundtrip (ReplaceOne (ID seg) (Seq seg)
        (mkSegment (ID seg) (Seq seg) payload start (uint64 (len payload)))) c
    with
    | (Some e1, c1) => Some (Some e1, c1)
    | (None, c1) =>
        write_loop fuel c1 r1
          (mkSegment (ID seg) (uint64 (Seq seg + 1)) payload start
             (uint64 (len payload)))
          (uint64 (start + uint64 (len payload)))
    end = Some (out, c') →
    wf_docs (docs c') ∧
    ∀ blobID, blobID ≠ ID seg → blob blobID (docs c') = blob blobID (docs c))
    as Hpersist.
  { intros payload r1.
    set (s := mkSegment (ID seg) (Seq seg) payload start (uint64 (len payload))).
    assert (wf_docs (docs (roundtrip (ReplaceOne (ID seg) (Seq seg) s) c).2) ∧
      ∀ blobID, blobID ≠ ID seg →
        blob blobID (docs (roundtrip (ReplaceOne (ID seg) (Seq seg) s) c).2) =
        blob blobID (docs c)) as [Hwf1 Hframe1].
    { destruct (roundtrip_docs (ReplaceOne (ID seg) (Seq seg) s) c)
        as [->|[_ ->]]; [done|]. split; [by apply upsert_wf|].
      intros blobID Hne. apply upsert_filter_miss; [|done].
      intros d [= Hid _]. congruence. }
    destruct (roundtrip _ c) as [[e1|] c1]; cbn [snd] in *.
    - by intros [= <- <-].
    - intros [Hwf' Hframe']%IH; [|done|apply uint64_nonneg].
      split; [done|]. intros blobID Hne. rewrite Hframe' by done.
      by apply Hframe1. }
  cbn [write_loop].
  destruct (ReadAtLeast r (Data seg) (len (Data seg))) as [[[n err] buf] r1].
  destruct (errors_Is err ErrUnexpectedEOF); [by apply Hpersist|].
  destruct (errors_Is err EOF);
    [|destruct err as [e|]; [by intros [= <- <-]|by apply Hpersist]].
  intros [= Hrt].
  destruct (roundtrip_docs (DeleteGte (ID seg) (Seq seg)) c) as [Hd|[_ Hd]];
    rewrite Hrt in Hd; cbn [snd] in Hd; rewrite Hd; [done|].
  split; [by apply wf_docs_filter|].
  intros blobID Hne. unfold blob, apply_op. rewrite list_filter_filter.
  apply list_filter_iff. intros d. intuition congruence.
Qed.



(** C8, amended: a [Write] that returns no error, whatever the stream it
    read and whatever the collection held, leaves the rows of its blob laid
    out back to back from offset 0, each starting at the total length of
    the rows before it and strictly before the next; and every call,
    however it ends, keeps this layout for every blob it is not a [Write]
    to, and keeps the unique index respected.  A [Write] that returns an
    error is left out: it may break the layout of its blob. *)
Theorem contiguity_invariant op store out store' :
  wf_docs (docs (Collection store)) → call_fits op →
  run_call op store = Some (out, store') →
  wf_docs (docs (Collection store')) ∧
  ∀ blobID,
    let rows := find_rows blobID true (docs (Collection store)) in
    let rows' := find_rows blobID true (docs (Collection store')) in
    (writes_blob op blobID → out = Returned None → contiguous_rows rows') ∧
    (¬ writes_blob op blobID → contiguous_rows rows → contiguous_rows rows').
Proof.
  intros Hwf Hfits Hrun.
  assert (∀ ds, docs (Collection store') = ds →
    ds = docs (Collection store) ∨
    (∃ blobIDs, ds = apply_op (DeleteIn blobIDs) (docs (Collection store))) →
    wf_docs (docs (Collection store')) ∧
    ∀ blobID,
      contiguous_rows (find_rows blobID true (docs (Collection store))) →
      contiguous_rows (find_rows blobID true (docs (Collection store'))))
    as Hsame.
  { intros ds -> [->|[blobIDs ->]]; [done|].
    split; [by apply wf_docs_filter|]. intros blobID Hrows.
    rewrite find_rows_DeleteIn. case_decide; [apply contiguous_rows_nil|done]. }
  destruct op as [|blobIDs|fuel blobID [r|]|blobID|blobID];
    cbn [run_call writes_blob] in *.
  - (* EnsureIndex *)
    assert (docs (Collection store') = docs (Collection store)) as Hd.
    { unfold EnsureIndex in Hrun. destruct (index store);
        [by injection Hrun as _ <-|].
      destruct (roundtrip_docs CreateIndex (Collection store)) as [Hd|[_ Hd]];
        destruct (roundtrip _ _) as [err c]; by injection Hrun as _ <-. }
    destruct (Hsame _ Hd) as [Hwf' Hrows]; [by left|].
    split; [done|]. intros blobID. split; [done|]. intros _. apply Hrows.
  - (* Remove *)
    assert (docs (Collection store') = docs (Collection store) ∨
      docs (Collection store') =
        apply_op (DeleteIn blobIDs) (docs (Collection store))) as Hd.
    { unfold Remove in Hrun. destruct blobIDs as [|i ids];
        [left; by injection Hrun as _ <-|].
      destruct (roundtrip_docs (DeleteIn (i :: ids)) (Collection store))
        as [Hd|[_ Hd]];
        destruct (roundtrip _ _) as [err c]; injection Hrun as _ <-; auto. }
    destruct (Hsame _ eq_refl) as [Hwf' Hrows].
    { destruct Hd as [->| ->]; eauto. }
    split; [done|]. intros blobID. split; [done|]. intros _. apply Hrows.
  - (* Write *)
    unfold Write in Hrun.
    destruct (write_loop _ _ _ _ _) as [[err c]|] eqn:Hloop; [|done].
    injection Hrun as <- <-. cbn [with_collection Collection].
    pose proof Hloop as Hframe.
    apply write_loop_frame in Hframe as [Hwf' Hframe]; [|done..].
    cbn [ID] in Hframe.
    split; [done|]. intros blobID'. split.
    + intros <- [= ->].
      pose proof (effective_chunk_size_pos store) as Hpos.
      cbn [call_fits] in Hfits. unfold fits_slice, MaxInt64 in Hfits.
      apply (write_loop_completed _ _ _ _ _
        (Z.to_nat (effective_chunk_size store))) in Hloop;
        cbn [ID Seq Data]; try lia.
      2:{ left. by rewrite length_replicate. }
      destruct Hloop as (kept & _ & _ & _ & ->). cbn [ID Seq].
      rewrite Z.add_0_l.
      rewrite written_rows by (done || apply segments_from_run).
      apply contiguous_from_rows, segments_from_contiguous. lia.
    + intros Hne. unfold find_rows. rewrite Hframe by congruence. done.
  - (* Write from the nil reader *)
    injection Hrun as <- <-. split; [done|]. intros blobID'. by split.
  - (* Read *)
    pose proof (Read_docs store blobID) as Hd.
    destruct (Read store blobID) as [[rd err] st]. injection Hrun as _ <-.
    destruct (Hsame _ Hd) as [Hwf' Hrows]; [by left|].
    split; [done|]. intros blobID'. split; [done|]. intros _. apply Hrows.
  - (* Size *)
    pose proof (Size_docs store blobID) as Hd.
    destruct (Size store blobID) as [[n err] st]. injection Hrun as _ <-.
    destruct (Hsame _ Hd) as [Hwf' Hrows]; [by left|].
    split; [done|]. intros blobID'. split; [done|]. intros _. apply Hrows.
Qed.

Lemma contiguity_invariant_witness :
  wf_docs (docs (Collection abcde_store)) ∧
  ∀ blobID,
    let rows := find_rows blobID true (docs (Collection (newStore 2))) in
    let rows' := find_rows blobID true (docs (Collection abcde_store)) in
    (writes_blob (CallWrite 10 "1" (NewReader abcde)) blobID →
     Returned (@None error) = Returned None → contiguous_rows rows') ∧
    (¬ writes_blob (CallWrite 10 "1" (NewReader abcde)) blobID →
     contiguous_rows rows → contiguous_rows rows').
Proof.
  apply (contiguity_invariant (CallWrite 10 "1" (NewReader abcde))
    (newStore 2) (Returned None) abcde_store).
  - split; constructor.
  - by vm_compute.
  - vm_compute. reflexivity.
Defined.

(** C8 as stated fails: not every operation preserves the layout.  The
    blob holds ["abcde"] in chunks of 2, laid out back to back; a [Write]
    of ["z"] upserts its only segment, the truncation after it fails and
    [Write] returns the error of the store; the second row still starts at
    offset 2 while the first now ends at offset 1. *)
Lemma failed_write_breaks_contiguity :
  let store :=
    mkStore
      (mkCollection (docs (Collection abcde_store)) [] [None; Some "offline"])
      2 false in
  contiguous_rows (find_rows "1" true (docs (Collection store))) ∧
  ∃ store',
    Write 10 store "1" (NewReader [x7a]) =
      Some (Returned (Some (ErrOther "offline")), store') ∧
    ¬ contiguous_rows (find_rows "1" true (docs (Collection store'))).
Proof.
  split.
  - apply contiguous_from_rows. vm_compute. by repeat split.
  - eexists. split; [evaluate|]. intros Hrows.
    destruct (Hrows 0%nat (mkSegment "1" 0 [x7a] 0 1)) as [_ Hnext];
      [evaluate|].
    destruct (Hnext (mkSegment "1" 1 [x63; x64] 2 2)) as [Hstart _];
      [evaluate|].
    discriminate Hstart.
Qed.

(** A [Write] cut off by a failure of the store may leave old and new
    segments side by side: here the truncation after the new first segment
    fails, and the old second segment no longer starts where it ends. *)
Example interrupted_write_mixes :
  ∃ store',
    Write 10
      (mkStore (mkCollection (docs (Collection abcde_store)) [] [None; Some "offline"])
         2 false) "1" (NewReader [x7a]) =
      Some (Returned (Some (ErrOther "offline")), store') ∧
    (λ s, (Seq s, Start s, N s)) <$> find_rows "1" true (docs (Collection store')) =
      [(0, 0, 1); (1, 2, 2); (2, 4, 1)].
Proof. eexists. evaluate_each. Qed.

(** ** Streams that end with [ErrUnexpectedEOF] *)

(** C10 fails on the code: a stream that ends with [ErrUnexpectedEOF]
    takes the branch meant for a short last chunk with nothing read, and
    [Write] upserts a segment with [n = 0], then another at each further
    iteration, until the store fails. *)
Theorem write_persists_empty_segments :
  ∃ store',
    Write 5 failing_third "1" (cut_short []) =
      Some (Returned (Some (ErrOther "offline")), store') ∧
    docs (Collection store') =
      [mkSegment "1" 0 [] 0 0; mkSegment "1" 1 [] 0 0] ∧
    oplog (Collection store') =
      [ReplaceOne "1" 0 (mkSegment "1" 0 [] 0 0);
       ReplaceOne "1" 1 (mkSegment "1" 1 [] 0 0);
       ReplaceOne "1" 2 (mkSegment "1" 2 [] 0 0)].
Proof. eexists. evaluate_each. Qed.

(** The same after some bytes: the last chunk is followed by empty
    segments. *)
Example write_cut_short_abcde :
  ∃ store',
    Write 9 (mkStore (mkCollection [] [] (replicate 5 None ++ [Some "offline"]))
               2 false) "1" (cut_short abcde) =
      Some (Returned (Some (ErrOther "offline")), store') ∧
    N <$> docs (Collection store') = [2; 2; 1; 0; 0].
Proof. eexists. evaluate_each. Qed.

Lemma write_loop_empty_buffer_healthy fuel c r seg start :
  healthy c → Data seg = [] → write_loop fuel c r seg start = None.
Proof.
  revert c seg start. induction fuel as [|fuel IH]; intros c seg start Hc Hdata;
    [done|].
  cbn [write_loop]. rewrite Hdata, ReadAtLeast_empty_buffer.
  rewrite !errors_Is_nil.
  rewrite roundtrip_healthy by done. by apply IH.
Qed.

(** On a store that keeps answering, the [Write] of such a stream does not
    return, however many iterations it is given. *)
Lemma write_cut_short_loops fuel store blobID :
  healthy (Collection store) →
  Write fuel store blobID (cut_short []) = None.
Proof.
  intros Hc. unfold Write, cut_short.
  pose proof (effective_chunk_size_pos store) as Hpos.
  destruct fuel as [|fuel]; [done|]. cbn [write_loop Data].
  rewrite ReadAtLeast_end by (rewrite length_replicate; lia).
  rewrite roundtrip_healthy by done.
  by rewrite write_loop_empty_buffer_healthy.
Qed.

(** ** Payloads of the segments [Write] upserts *)

Lemma roundtrip_oplog op c : oplog (roundtrip op c).2 = oplog c ++ [op].
Proof. unfold roundtrip. by destruct (faults c) as [|[msg|] fs]. Qed.

(** For every other stream the comment in the loop is right: each upsert
    of the loop carries between one byte and a chunk. *)
Lemma write_loop_payloads fuel c r seg start chunk out c' :
  errors_Is (Some (final r)) ErrUnexpectedEOF = false → 0 < chunk < 2 ^ 64 →
  len (Data seg) = chunk ∨ (pending r = [] ∧ 0 < len (Data seg) ≤ chunk) →
  write_loop fuel c r seg start = Some (out, c') →
  ∃ ops, oplog c' = oplog c ++ ops ∧ Forall (carries_payload chunk) ops.
Proof.
  intros Hfinal Hchunk. revert c r seg start Hfinal.
  induction fuel as [|fuel IH]; intros c [b e] seg start Hfinal Hbuf; [done|].
  cbn [pending final] in *.
  assert (∀ payload r1,
    1 ≤ len payload ≤ chunk →
    (len payload = chunk ∨ (pending r1 = [] ∧ 0 < len payload ≤ chunk)) →
    errors_Is (Some (final r1)) ErrUnexpectedEOF = false →
    match
      roundtrip (ReplaceOne (ID seg) (Seq seg)
        (mkSegment (ID seg) (Seq seg) payload start (uint64 (len payload)))) c
    with
    | (Some e1, c1) => Some (Some e1, c1)
    | (None, c1) =>
        write_loop fuel c1 r1
          (mkSegment (ID seg) (uint64 (Seq seg + 1)) payload start
             (uint64 (len payload)))
          (uint64 (start + uint64 (len payload)))
    end = Some (out, c') →
    ∃ ops, oplog c' = oplog c ++ ops ∧ Forall (carries_payload chunk) ops)
    as Hpersist.
  { intros payload r1 Hpayload Hnext Hfinal1.
    pose proof (roundtrip_oplog (ReplaceOne (ID seg) (Seq seg)
      (mkSegment (ID seg) (Seq seg) payload start (uint64 (len payload)))) c)
      as Hlog.
    destruct (roundtrip _ c) as [[e1|] c2]; cbn [snd] in Hlog.
    - intros [= <- <-]. eexists. split; [done|]. constructor; [|done].
      cbn. by rewrite uint64_small by lia.
    - intros (ops & Hops & Hall)%IH; [|done..].
      eexists. split; [by rewrite Hops, Hlog, <-app_assoc|].
      constructor; [|done]. cbn. by rewrite uint64_small by lia. }
  assert ((if errors_Is (Some e) EOF
     then Some (roundtrip (DeleteGte (ID seg) (Seq seg)) c)
     else Some (Some e, c)) = Some (out, c') →
    ∃ ops, oplog c' = oplog c ++ ops ∧ Forall (carries_payload chunk) ops)
    as Hbreak.
  { destruct (errors_Is (Some e) EOF).
    - intros [= Hrt]. exists [DeleteGte (ID seg) (Seq seg)].
      split; [|by repeat constructor].
      rewrite <-roundtrip_oplog. by rewrite Hrt.
    - intros [= <- <-]. exists []. by rewrite app_nil_r. }
  cbn [write_loop]. destruct b as [|x b'].
  - rewrite ReadAtLeast_end by (unfold len in Hbuf; lia).
    by rewrite Hfinal.
  - destruct Hbuf as [Hbuf|[? _]]; [|done]. set (b := x :: b') in *.
    assert (1 ≤ len b) by (unfold len, b; simpl; lia).
    destruct (decide (length (Data seg) ≤ length b)%nat) as [Hfull|Hpart].
    + rewrite ReadAtLeast_full by (unfold len in *; lia).
      rewrite !errors_Is_nil.
      apply Hpersist; [|left|done]; unfold len in *; rewrite length_take; lia.
    + rewrite ReadAtLeast_short by (done || lia).
      destruct (decide (e = EOF)) as [->|He].
      * rewrite errors_Is_self.
        replace (Z.to_nat (len b)) with (length b) by (unfold len; lia).
        rewrite take_app_length.
        apply Hpersist; [|right|done]; unfold len in *; [lia|].
        split; [done|lia].
      * by rewrite Hfinal.
Qed.

(** X13: for a stream that ends neither with [ErrUnexpectedEOF] nor with
    an error that wraps it, whatever it delivers, however it ends and
    whatever the store does, every segment [Write] upserts carries at least
    one byte and at most a chunk, with [n] the length of its payload;
    [DefaultChunkSize] has the value it is initialised with. *)
Lemma write_payloads fuel store blobID r out store' :
  errors_Is (Some (final r)) ErrUnexpectedEOF = false →
  effective_chunk_size store ≤ MaxInt64 →
  Write fuel store blobID (Some r) = Some (out, store') →
  ∃ ops,
    oplog (Collection store') = oplog (Collection store) ++ ops ∧
    Forall (carries_payload (effective_chunk_size store)) ops.
Proof.
  intros Hfinal Hint. unfold Write.
  pose proof (effective_chunk_size_pos store) as Hpos.
  destruct (write_loop _ _ _ _ _) as [[err c]|] eqn:Hloop; [|done].
  intros [= <- <-]. cbn [with_collection Collection].
  apply (write_loop_payloads _ _ _ _ _ (effective_chunk_size store)) in Hloop;
    [done..| |].
  - unfold MaxInt64 in Hint. lia.
  - left. cbn. unfold len. rewrite length_replicate. lia.
Qed.

(** ** Index creation happens once *)

Lemma weight_insert w ps i p q :
  ps !! i = Some p →
  (weight w (<[i:=q]> ps) + w p = weight w ps + w q)%nat.
Proof.
  revert i. induction ps as [|a ps IH]; intros [|i] Hi; try done; simpl in *.
  - injection Hi as ->. lia.
  - specialize (IH i Hi). lia.
Qed.

Lemma weight_le w1 w2 ps :
  (∀ p, w1 p ≤ w2 p)%nat → (weight w1 ps ≤ weight w2 ps)%nat.
Proof.
  intros Hle. induction ps as [|a ps IH]; simpl; [lia|].
  specialize (Hle a). lia.
Qed.

Lemma weight_replicate w n p : w p = 0%nat → weight w (replicate n p) = 0%nat.
Proof. intros Hw. induction n as [|n IH]; [done|]. simpl. by rewrite Hw, IH. Qed.

Lemma step_invariant i st : once_invariant st → once_invariant (step i st).
Proof.
  intros (Hmutex & Hcount & Hdone). unfold step.
  destruct (goroutines st !! i) as [p|] eqn:Hi; [|done].
  assert (weight in_body (goroutines st) ≤
    weight holds_mutex (goroutines st))%nat as Hle
    by (apply weight_le; intros []; simpl; lia).
  assert (∀ q,
    weight holds_mutex (<[i:=q]> (goroutines st)) + holds_mutex p =
      weight holds_mutex (goroutines st) + holds_mutex q ∧
    weight in_body (<[i:=q]> (goroutines st)) + in_body p =
      weight in_body (goroutines st) + in_body q)%nat as Hq
    by (intros q; split; by apply weight_insert).
  unfold once_invariant.
  destruct p, (onceDone st) eqn:Hd, (mutexLocked st) eqn:Hl;
    cbn [at_pc onceDone mutexLocked creations goroutines];
    rewrite ?Hd, ?Hl; try done;
    match goal with
    | |- context [<[i:=?q]> _] => destruct (Hq q) as [Hq1 Hq2]
    end;
    cbn [holds_mutex in_body] in *;
    (split_and!; [| |intros Hnew; try discriminate Hnew]);
    try specialize (Hdone eq_refl); try lia.
Qed.

Lemma run_schedule_invariant schedule st :
  once_invariant st → once_invariant (run_schedule schedule st).
Proof.
  revert st. induction schedule as [|i schedule IH]; intros st Hst; [done|].
  apply IH. by apply step_invariant.
Qed.

Lemma start_invariant n : once_invariant (start n).
Proof.
  unfold once_invariant, start. cbn. by rewrite !weight_replicate.
Qed.

Lemma EnsureIndex_done store :
  index store = true → EnsureIndex store = (None, store).
Proof. unfold EnsureIndex. by intros ->. Qed.

Lemma EnsureIndex_first store :
  index store = false →
  index (EnsureIndex store).2 = true ∧
  oplog (Collection (EnsureIndex store).2) =
    oplog (Collection store) ++ [CreateIndex].
Proof.
  unfold EnsureIndex. intros ->.
  pose proof (roundtrip_oplog CreateIndex (Collection store)) as Hlog.
  by destruct (roundtrip _ _).
Qed.

(** C9: however many goroutines call [EnsureIndex] on a store, however
    often, and however their steps interleave, at most one [CreateOne]
    round trip is ever begun and at most one goroutine is inside it; called
    one after the other, the first call makes the round trip and the later
    ones make none. *)
Theorem ensure_index_once :
  (∀ n schedule,
     let st := run_schedule schedule (start n) in
     (creations st ≤ 1)%nat ∧
     (weight is_creating (goroutines st) ≤ 1)%nat ∧
     (onceDone st = true → creations st = 1%nat)) ∧
  (∀ store n,
     index store = false →
     oplog (Collection (EnsureIndex_times (S n) store)) =
       oplog (Collection store) ++ [CreateIndex]) ∧
  (∀ store, index store = true → EnsureIndex store = (None, store)).
Proof.
  split_and!.
  - intros n schedule st.
    destruct (run_schedule_invariant schedule (start n) (start_invariant n))
      as (Hmutex & Hcount & Hdone). fold st in Hmutex, Hcount, Hdone.
    assert (weight in_body (goroutines st) ≤
      weight holds_mutex (goroutines st))%nat as Hle1
      by (apply weight_le; intros []; simpl; lia).
    assert (weight is_creating (goroutines st) ≤
      weight in_body (goroutines st))%nat as Hle2
      by (apply weight_le; intros []; simpl; lia).
    destruct (onceDone st), (mutexLocked st); try specialize (Hdone eq_refl);
      split_and!; try done; lia.
  - intros store n Hindex.
    destruct (EnsureIndex_first store Hindex) as [Hdone Hlog].
    induction n as [|n IH]; [done|].
    change (EnsureIndex_times (S (S n)) store)
      with (EnsureIndex (EnsureIndex_times (S n) store)).2.
    assert (index (EnsureIndex_times (S n) store) = true) as Hstill.
    { clear IH. induction n as [|n IHn]; [done|].
      change (EnsureIndex_times (S (S n)) store)
        with (EnsureIndex (EnsureIndex_times (S n) store)).2.
      by rewrite EnsureIndex_done. }
    by rewrite EnsureIndex_done.
  - apply EnsureIndex_done.
Qed.

(** Three goroutines racing through their first call. *)
Example ensure_index_race :
  let st := run_schedule [0; 1; 0; 1; 0; 2; 0; 0; 1; 0; 1; 2; 1; 1; 2; 2; 2]%nat
              (start 3) in
  creations st = 1%nat ∧ goroutines st = [Finished; Finished; Finished].
Proof. by vm_compute. Qed.

(** * Further properties *)

(** ** What [Read] and [Size] return *)

Lemma roundtrip_faults op c :
  faults (roundtrip op c).2 = tail (faults c) ∧
  ((roundtrip op c).1 = None ∨
   ∃ msg, (roundtrip op c).1 = Some (ErrOther msg) ∧
     head (faults c) = Some (Some msg) ∧
     docs (roundtrip op c).2 = docs c).
Proof.
  unfold roundtrip. destruct (faults c) as [|[msg|] fs]; cbn; eauto 6.
Qed.

(** X1: [Read] and [Size] issue one [Find] each and never change a
    document.  [Read] returns a stream exactly when it returns no error,
    and then the blob has a row; when the store answers the round trips
    that follow, the stream carries one chunk per row in [seq] order.
    Otherwise [Read] returns no stream and either [ErrNotFound], the blob
    having no document, or the error of the store, which failed the [Find].
    [Size] follows the same cases, returning 0 with an error. *)
Theorem read_size_outcomes store blobID :
  let c := Collection store in
  let rows := find_rows blobID true (docs c) in
  (∃ rd err c',
     Read store blobID = (rd, err, with_collection store c') ∧
     docs c' = docs c ∧ oplog c' = oplog c ++ [Find blobID true] ∧
     ((err = None ∧ is_Some rd ∧ rows ≠ [] ∧
       (healthy c' → rd = Some (Data <$> rows))) ∨
      (err = Some ErrNotFound ∧ rd = None ∧ blob blobID (docs c) = []) ∨
      (∃ msg, err = Some (ErrOther msg) ∧ rd = None ∧
         head (faults c) = Some (Some msg)))) ∧
  (∃ n err c',
     Size store blobID = (n, err, with_collection store c') ∧
     docs c' = docs c ∧ oplog c' = oplog c ++ [Find blobID false] ∧
     ((err = None ∧ blob blobID (docs c) ≠ []) ∨
      (err = Some ErrNotFound ∧ n = 0 ∧ blob blobID (docs c) = []) ∨
      (∃ msg, err = Some (ErrOther msg) ∧ n = 0 ∧
         head (faults c) = Some (Some msg)))).
Proof.
  cbv zeta. split.
  - unfold Read.
    pose proof (roundtrip_oplog (Find blobID true) (Collection store)) as Hlog.
    destruct (roundtrip_Find blobID true (Collection store)) as [Hdocs _].
    destruct (roundtrip_faults (Find blobID true) (Collection store))
      as [_ Herr].
    destruct (roundtrip _ _) as [[e|] c']; cbn [fst snd] in *.
    + destruct Herr as [|(msg & [= ->] & Hhead & _)]; [done|].
      do 3 eexists. split; [done|]. split_and!; [done..|]. eauto 10.
    + rewrite Hdocs.
      destruct (find_rows blobID true _) as [|s rest] eqn:Hrows.
      * apply find_rows_nil in Hrows. do 3 eexists. split; [done|].
        split_and!; [done..|]. auto.
      * do 3 eexists. split; [done|]. split_and!; [done..|]. left.
        split_and!; [done|by eexists|done|done].
  - unfold Size.
    pose proof (roundtrip_oplog (Find blobID false) (Collection store)) as Hlog.
    destruct (roundtrip_Find blobID false (Collection store)) as [Hdocs _].
    destruct (roundtrip_faults (Find blobID false) (Collection store))
      as [_ Herr].
    destruct (roundtrip _ _) as [[e|] c']; cbn [fst snd] in *.
    + destruct Herr as [|(msg & [= ->] & Hhead & _)]; [done|].
      do 3 eexists. split; [done|]. split_and!; [done..|]. eauto 10.
    + rewrite Hdocs.
      destruct (find_rows blobID false _) as [|s rest] eqn:Hrows.
      * apply find_rows_nil in Hrows. do 3 eexists. split; [done|].
        split_and!; [done..|]. auto.
      * do 3 eexists. split; [done|]. split_and!; [done..|]. left.
        split; [done|]. intros Hnil.
        apply (find_rows_nil blobID false) in Hnil. congruence.
Qed.

Lemma read_size_outcomes_witness :
  (∃ rd err c',
     Read abcde_store "1" = (rd, err, with_collection abcde_store c') ∧
     docs c' = docs (Collection abcde_store) ∧
     oplog c' = oplog (Collection abcde_store) ++ [Find "1" true] ∧
     ((err = None ∧ is_Some rd ∧
       find_rows "1" true (docs (Collection abcde_store)) ≠ [] ∧
       (healthy c' →
        rd = Some (Data <$> find_rows "1" true (docs (Collection abcde_store))))) ∨
      (err = Some ErrNotFound ∧ rd = None ∧
       blob "1" (docs (Collection abcde_store)) = []) ∨
      (∃ msg, err = Some (ErrOther msg) ∧ rd = None ∧
         head (faults (Collection abcde_store)) = Some (Some msg)))) ∧
  (∃ n err c',
     Size abcde_store "1" = (n, err, with_collection abcde_store c') ∧
     docs c' = docs (Collection abcde_store) ∧
     oplog c' = oplog (Collection abcde_store) ++ [Find "1" false] ∧
     ((err = None ∧ blob "1" (docs (Collection abcde_store)) ≠ []) ∨
      (err = Some ErrNotFound ∧ n = 0 ∧
       blob "1" (docs (Collection abcde_store)) = []) ∨
      (∃ msg, err = Some (ErrOther msg) ∧ n = 0 ∧
         head (faults (Collection abcde_store)) = Some (Some msg)))).
Proof. apply (read_size_outcomes abcde_store "1"). Defined.

(** ** The errors of [Write] *)

(** Reading into the whole buffer: the stream keeps its final error, and
    the error reported is none, the final error of the stream, or
    [ErrUnexpectedEOF]; [EOF] is reported only if the stream ends with it. *)
Lemma ReadAtLeast_whole r buf :
  ∃ n err buf' r',
    ReadAtLeast r buf (len buf) = (n, err, buf', r') ∧
    final r' = final r ∧
    (err = None ∨ err = Some (final r) ∨
     (err = Some ErrUnexpectedEOF ∧ final r = EOF)).
Proof.
  unfold ReadAtLeast. rewrite decide_False by lia.
  case_decide; [by eauto 10|].
  destruct (pending r) as [|x b]; [by eauto 10|].
  repeat case_decide; do 4 eexists; (split; [done|]); cbn; auto.
Qed.

Lemma write_loop_errors fuel c r seg start e c' :
  write_loop fuel c r seg start = Some (Some e, c') →
  (e = final r ∧ errors_Is (Some e) EOF = false ∧
   errors_Is (Some e) ErrUnexpectedEOF = false) ∨
  (∃ msg, e = ErrOther msg ∧ Some msg ∈ faults c).
Proof.
  revert c r seg start. induction fuel as [|fuel IH]; intros c r seg start;
    [done|].
  cbn [write_loop].
  destruct (ReadAtLeast_whole r (Data seg))
    as (n & err & buf & r1 & -> & Hfinal & Herr).
  assert (∀ payload,
    match
      roundtrip (ReplaceOne (ID seg) (Seq seg)
        (mkSegment (ID seg) (Seq seg) payload start (uint64 (len payload)))) c
    with
    | (Some e1, c1) => Some (Some e1, c1)
    | (None, c1) =>
        write_loop fuel c1 r1
          (mkSegment (ID seg) (uint64 (Seq seg + 1)) payload start
             (uint64 (len payload)))
          (uint64 (start + uint64 (len payload)))
    end = Some (Some e, c') →
    (e = final r ∧ errors_Is (Some e) EOF = false ∧
     errors_Is (Some e) ErrUnexpectedEOF = false) ∨
    (∃ msg, e = ErrOther msg ∧ Some msg ∈ faults c)) as Hpersist.
  { intros payload.
    destruct (roundtrip_faults (ReplaceOne (ID seg) (Seq seg)
      (mkSegment (ID seg) (Seq seg) payload start (uint64 (len payload)))) c)
      as [Htail Hfail].
    destruct (roundtrip _ c) as [[e1|] c1]; cbn [fst snd] in *.
    - intros [= -> <-]. right.
      destruct Hfail as [|(msg & [= ->] & Hhead & _)]; [done|].
      exists msg. split; [done|]. destruct (faults c); [done|].
      injection Hhead as ->. by left.
    - intros [Hr|(msg & -> & Hin)]%IH.
      + left. by rewrite <-Hfinal.
      + right. exists msg. split; [done|]. rewrite Htail in Hin.
        destruct (faults c); [done|]. by right. }
  destruct (errors_Is err ErrUnexpectedEOF) eqn:Hcut; [by apply Hpersist|].
  destruct (errors_Is err EOF) eqn:Heof.
  - intros [= Hrt]. right.
    destruct (roundtrip_faults (DeleteGte (ID seg) (Seq seg)) c)
      as [_ Hfail].
    rewrite Hrt in Hfail. cbn [fst] in Hfail.
    destruct Hfail as [|(msg & [= ->] & Hhead & _)]; [done|].
    exists msg. split; [done|]. destruct (faults c); [done|].
    injection Hhead as ->. by left.
  - destruct err as [e0|]; [|by apply Hpersist].
    intros [= <- <-]. left.
    destruct Herr as [|[[= <-]|[[= ->] _]]]; done.
Qed.

(** X2: an error [Write] returns is either the error its input stream ends
    with, or an error of the store, one of whose round trips failed.  It is
    never [io.EOF] nor [io.ErrUnexpectedEOF]: the end of the stream is no
    error, and a stream cut short is not reported. *)
Theorem write_errors fuel store blobID r e store' :
  Write fuel store blobID (Some r) = Some (Returned (Some e), store') →
  e ≠ EOF ∧ e ≠ ErrUnexpectedEOF ∧
  (e = final r ∨
   ∃ msg, e = ErrOther msg ∧ Some msg ∈ faults (Collection store)).
Proof.
  unfold Write.
  destruct (write_loop _ _ _ _ _) as [[err c]|] eqn:Hloop; [|done].
  intros [= -> <-].
  apply write_loop_errors in Hloop
    as [(-> & ?%errors_Is_neq & ?%errors_Is_neq)|(msg & -> & Hin)].
  - auto.
  - split_and!; [done..|]. right. by exists msg.
Qed.

Lemma write_errors_witness :
  ErrOther "offline" ≠ EOF ∧ ErrOther "offline" ≠ ErrUnexpectedEOF ∧
  (ErrOther "offline" = final (mkReader abcde EOF) ∨
   ∃ msg, ErrOther "offline" = ErrOther msg ∧
     Some msg ∈ faults (Collection failing_third)).
Proof.
  apply (write_errors 10 failing_third "1" (mkReader abcde EOF)
    (ErrOther "offline")
    (mkStore
       (mkCollection
          [mkSegment "1" 0 [x61; x62] 0 2; mkSegment "1" 1 [x63; x64] 2 2]
          [ReplaceOne "1" 0 (mkSegment "1" 0 [x61; x62] 0 2);
           ReplaceOne "1" 1 (mkSegment "1" 1 [x63; x64] 2 2);
           ReplaceOne "1" 2 (mkSegment "1" 2 [x65] 4 1)]
          []) 2 false)).
  vm_compute. reflexivity.
Defined.

(** ** Streams cut short *)

Lemma write_loop_cut_short fuel c r seg start :
  healthy c → errors_Is (Some (final r)) ErrUnexpectedEOF = true →
  write_loop fuel c r seg start = None.
Proof.
  revert c r seg start. induction fuel as [|fuel IH];
    intros c r seg start Hc Hr; [done|].
  cbn [write_loop].
  destruct (ReadAtLeast_whole r (Data seg))
    as (n & err & buf & r1 & -> & Hfinal & Herr).
  rewrite <-Hfinal in Hr.
  destruct Herr as [->|[->|[_ Heof]]].
  - rewrite !errors_Is_nil, roundtrip_healthy by done. by apply IH.
  - rewrite <-Hfinal, Hr, roundtrip_healthy by done. by apply IH.
  - by rewrite Hfinal, Heof in Hr.
Qed.

(** X3: on a store that keeps answering, [Write] of a stream that ends
    with [io.ErrUnexpectedEOF], or with an error that wraps it, never
    returns, whatever the stream delivers first and however many iterations
    the loop is given. *)
Theorem write_cut_short_never_returns fuel store blobID r :
  healthy (Collection store) →
  errors_Is (Some (final r)) ErrUnexpectedEOF = true →
  Write fuel store blobID (Some r) = None.
Proof.
  intros Hc Hr. unfold Write. by rewrite write_loop_cut_short.
Qed.

Lemma write_cut_short_never_returns_witness :
  Write 50 (newStore 2) "1" (cut_short abcde) = None ∧
  Write 50 (newStore 2) "1"
    (Some (mkReader abcde (ErrWrap "body" ErrUnexpectedEOF))) = None.
Proof.
  split.
  - apply (write_cut_short_never_returns 50 (newStore 2) "1"
      (mkReader abcde ErrUnexpectedEOF)); reflexivity.
  - apply (write_cut_short_never_returns 50 (newStore 2) "1"
      (mkReader abcde (ErrWrap "body" ErrUnexpectedEOF))); reflexivity.
Defined.

(** ** A stream that fails *)

Lemma segments_from_cons blobID chunk seq start b :
  (0 < chunk)%nat → b ≠ [] →
  segments_from (length b) blobID seq start chunk b =
    mkSegment blobID seq (take chunk b) start (len (take chunk b))
    :: segments_from (length (drop chunk b)) blobID (seq + 1)
         (start + len (take chunk b)) chunk (drop chunk b).
Proof.
  intros Hchunk Hb. destruct b as [|x b]; [done|].
  cbn [length segments_from]. f_equal.
  apply segments_from_fuel; [done| |done].
  rewrite length_drop. simpl. lia.
Qed.

Lemma write_loop_stream_fails (k rest : nat) fuel c b e seg start chunk :
  healthy c →
  errors_Is (Some e) EOF = false →
  errors_Is (Some e) ErrUnexpectedEOF = false →
  length (Data seg) = chunk →
  length b = (k * chunk + rest)%nat → (rest < chunk)%nat →
  (length b < fuel)%nat →
  0 ≤ Seq seg → Seq seg + len b < 2 ^ 64 →
  0 ≤ start → start + len b < 2 ^ 64 →
  let full :=
    take k (segments_from (length b) (ID seg) (Seq seg) start chunk b) in
  write_loop fuel c (mkReader b e) seg start =
    Some (Some e,
          mkCollection (persist_all full (docs c))
            (oplog c ++ (replace_op <$> full)) []).
Proof.
  intros Hc He1 He2. revert fuel c b seg start Hc.
  induction k as [|k IH]; intros fuel c b seg start Hc Hbuf Hlen Hrest Hfuel
    Hseq Hseqs Hstart Hstarts; (destruct fuel as [|fuel]; [lia|]).
  - (* fewer bytes than a chunk are left: they are read and dropped *)
    rewrite take_0. unfold persist_all. cbn [foldl fmap list_fmap].
    rewrite app_nil_r.
    assert (c = mkCollection (docs c) (oplog c) []) as Hcoll
      by (destruct c; unfold healthy in Hc; simpl in *; by subst).
    cbn [write_loop]. destruct b as [|x b'].
    + rewrite ReadAtLeast_end by lia. by rewrite He1, He2, <-Hcoll.
    + rewrite ReadAtLeast_short by (done || lia).
      rewrite decide_False by by apply errors_Is_neq.
      by rewrite He1, He2, <-Hcoll.
  - assert (b ≠ []) as Hb by (intros ->; simpl in Hlen; lia).
    assert (1 ≤ len b) by (destruct b; [done|unfold len; simpl; lia]).
    assert (len (take chunk b) = Z.of_nat chunk) as Htake
      by (unfold len; rewrite length_take; lia).
    rewrite write_loop_chunk; cbn [pending final]; try done; try lia.
    rewrite roundtrip_healthy by done. rewrite Hbuf.
    assert (length (take chunk b) = chunk) as Htake'
      by (rewrite length_take; lia).
    assert (length (drop chunk b) = (k * chunk + rest)%nat) as Hdrop
      by (rewrite length_drop; lia).
    assert (len (drop chunk b) = len b - Z.of_nat chunk) as Hdrop'
      by (unfold len; rewrite length_drop; lia).
    rewrite IH; cbn [ID Seq Data docs oplog]; try done; try lia.
    rewrite (segments_from_cons (ID seg) chunk (Seq seg) start b)
      by (done || lia).
    rewrite firstn_cons, persist_all_cons, fmap_cons. cbn [ID Seq].
    unfold apply_op, replace_op at 1. cbn [ID Seq].
    by rewrite <-app_assoc.
Qed.

(** X4: when the input stream fails with an error that neither is nor
    wraps one of the two [Write] interprets, [Write] returns that error.  The full chunks read
    before the failure stay upserted, the bytes of the chunk being read are
    dropped, and nothing is deleted: the segments beyond are left as they
    were. *)
Theorem write_stream_failure fuel store blobID b e :
  healthy (Collection store) →
  errors_Is (Some e) EOF = false →
  errors_Is (Some e) ErrUnexpectedEOF = false →
  (length b < fuel)%nat → fits_slice b →
  let c := Collection store in
  let chunk := effective_chunk_size store in
  let full := take (Z.to_nat (len b / chunk)) (segments blobID chunk b) in
  Write fuel store blobID (Some (mkReader b e)) =
    Some (Returned (Some e),
          with_collection store
            (mkCollection (persist_all full (docs c))
               (oplog c ++ (replace_op <$> full)) [])).
Proof.
  intros Hc He1 He2 Hfuel Hfits. cbv zeta.
  pose proof (effective_chunk_size_pos store) as Hpos.
  unfold fits_slice, MaxInt64 in Hfits. unfold Write, segments.
  set (chunk := effective_chunk_size store) in *.
  rewrite (write_loop_stream_fails (Z.to_nat (len b / chunk))
    (Z.to_nat (len b mod chunk)) _ _ _ _ _ _ (Z.to_nat chunk));
    cbn [ID Seq Data]; try done; try lia.
  - by rewrite length_replicate.
  - pose proof (Z.div_mod (len b) chunk ltac:(lia)) as Hdm.
    pose proof (Z.mod_pos_bound (len b) chunk Hpos).
    assert (0 ≤ len b / chunk) by (apply Z.div_pos; unfold len; lia).
    unfold len in *. nia.
  - pose proof (Z.mod_pos_bound (len b) chunk Hpos). lia.
Qed.

Lemma write_stream_failure_witness :
  Write 10 (newStore 2) "1" (Some (mkReader abcde (ErrOther "reset"))) =
    Some (Returned (Some (ErrOther "reset")),
          with_collection (newStore 2)
            (mkCollection
               (persist_all (take (Z.to_nat (len abcde / 2)) (segments "1" 2 abcde)) [])
               ([] ++ (replace_op <$>
                  take (Z.to_nat (len abcde / 2)) (segments "1" 2 abcde))) [])).
Proof.
  apply (write_stream_failure 10 (newStore 2) "1" abcde (ErrOther "reset")).
  - reflexivity.
  - reflexivity.
  - reflexivity.
  - simpl. lia.
  - by vm_compute.
Defined.

(** ** A stream that ends with an error wrapping [EOF] *)





(** ** A store that fails during [Write] *)

Lemma write_loop_store_fails fuel c b seg start chunk (j : nat) msg fs :
  faults c = replicate j None ++ Some msg :: fs →
  (0 < chunk)%nat →
  length (Data seg) = chunk ∨ (b = [] ∧ (0 < length (Data seg))%nat) →
  (length b < fuel)%nat →
  0 ≤ Seq seg → Seq seg + len b < 2 ^ 64 →
  0 ≤ start → start + len b < 2 ^ 64 →
  let segs := segments_from (length b) (ID seg) (Seq seg) start chunk b in
  let trips :=
    (replace_op <$> segs) ++ [DeleteGte (ID seg) (Seq seg + len segs)] in
  (j ≤ length segs)%nat →
  write_loop fuel c (mkReader b EOF) seg start =
    Some (Some (ErrOther msg),
          mkCollection (persist_all (take j segs) (docs c))
            (oplog c ++ take (S j) trips) fs).
Proof.
  intros Hfaults Hchunk. revert c b seg start j Hfaults.
  induction fuel as [|fuel IH]; intros c b seg start j Hfaults Hbuf Hfuel
    Hseq Hseqs Hstart Hstarts; [lia|].
  cbv zeta. destruct b as [|x b'].
  - cbn [length segments_from]. intros Hj.
    assert (j = 0%nat) as -> by (simpl in Hj; lia).
    cbn [write_loop]. rewrite ReadAtLeast_end by (destruct Hbuf; lia).
    unfold roundtrip. rewrite Hfaults. cbn. by rewrite Z.add_0_r.
  - destruct Hbuf as [Hbuf|[? _]]; [|done]. set (b := x :: b') in *.
    assert (b ≠ []) as Hb by done.
    assert (1 ≤ len b) by (unfold len, b; simpl; lia).
    assert (len (take chunk b) = len b `min` Z.of_nat chunk) as Htake
      by (unfold len; rewrite length_take; lia).
    assert (len (drop chunk b) = len b - len (take chunk b)) as Hdrop
      by (unfold len; rewrite length_drop, length_take; lia).
    assert ((length (drop chunk b) < length b)%nat) as Hshorter
      by (rewrite length_drop; unfold b; simpl; lia).
    rewrite (segments_from_cons (ID seg) chunk (Seq seg) start b) by done.
    intros Hj.
    rewrite write_loop_chunk; cbn [pending final]; try done; try lia;
      [|by auto].
    rewrite Hbuf. unfold roundtrip at 1. rewrite Hfaults.
    destruct j as [|j]; cbn [replicate app].
    + by rewrite take_0.
    + rewrite (IH _ _ _ _ j); cbn [ID Seq Data docs oplog faults];
        try done; try lia.
      * set (rest := segments_from (length (drop chunk b)) (ID seg)
          (Seq seg + 1) (start + len (take chunk b)) chunk (drop chunk b)).
        set (s := mkSegment (ID seg) (Seq seg) (take chunk b) start
          (len (take chunk b))).
        assert (Seq seg + len (s :: rest) = Seq seg + 1 + len rest) as ->
          by (unfold len; cbn [length]; lia).
        rewrite firstn_cons, persist_all_cons.
        rewrite fmap_cons, <-app_comm_cons, (firstn_cons (S j)).
        by rewrite <-app_assoc.
      * destruct (decide (chunk ≤ length b)%nat).
        -- left. rewrite length_take. lia.
        -- right. split; [by rewrite drop_ge by lia|].
           rewrite length_take. unfold b. simpl. lia.
      * simpl in Hj. lia.
Qed.

(** X5: when the store fails a round trip of a [Write], [Write] stops
    there and returns the error of the store.  The segments upserted before
    stay, nothing is rolled back, and when it is the final [DeleteMany]
    that fails every new segment is in place beside the old tail. *)
Theorem write_store_failure fuel store blobID b (j : nat) msg fs :
  faults (Collection store) = replicate j None ++ Some msg :: fs →
  (length b < fuel)%nat → fits_slice b →
  let c := Collection store in
  let segs := segments blobID (effective_chunk_size store) b in
  let trips := (replace_op <$> segs) ++ [DeleteGte blobID (len segs)] in
  (j ≤ length segs)%nat →
  Write fuel store blobID (NewReader b) =
    Some (Returned (Some (ErrOther msg)),
          with_collection store
            (mkCollection (persist_all (take j segs) (docs c))
               (oplog c ++ take (S j) trips) fs)).
Proof.
  intros Hfaults Hfuel Hfits. cbv zeta. intros Hj.
  pose proof (effective_chunk_size_pos store) as Hpos.
  unfold fits_slice, MaxInt64 in Hfits. unfold Write, NewReader, segments in *.
  rewrite (write_loop_store_fails _ _ _ _ _
    (Z.to_nat (effective_chunk_size store)) j msg fs);
    cbn [ID Seq Data]; try done; try lia.
  left. by rewrite length_replicate.
Qed.

Lemma write_store_failure_witness :
  Write 10 failing_third "1" (NewReader abcde) =
    Some (Returned (Some (ErrOther "offline")),
          with_collection failing_third
            (mkCollection (persist_all (take 2 (segments "1" 2 abcde)) [])
               ([] ++ take 3 ((replace_op <$> segments "1" 2 abcde) ++
                               [DeleteGte "1" (len (segments "1" 2 abcde))]))
               [])).
Proof.
  apply (write_store_failure 10 failing_third "1" abcde 2 "offline" []).
  - reflexivity.
  - simpl. lia.
  - by vm_compute.
  - vm_compute. lia.
Defined.

(** ** Blobs a call does not touch *)

Lemma roundtrip_other_blob op c blobID :
  match op with
  | ReplaceOne blobID' seq doc => blobID' ≠ blobID ∧ key doc = (blobID', seq)
  | DeleteGte blobID' _ => blobID' ≠ blobID
  | DeleteIn blobIDs => blobID ∉ blobIDs
  | _ => True
  end →
  blob blobID (docs (roundtrip op c).2) = blob blobID (docs c).
Proof.
  intros Hop. destruct (roundtrip_docs op c) as [->|[_ ->]]; [done|].
  unfold blob. destruct op as [|blobID' seq doc|blobIDs|blobID' seq|];
    cbn [apply_op]; try done.
  - destruct Hop as [Hne Hdoc]. apply upsert_filter_miss; [|done].
    intros d [= Hid _]. congruence.
  - rewrite list_filter_filter. apply list_filter_iff. intros d.
    split; [tauto|]. intros Hid. split; [done|]. by rewrite Hid.
  - rewrite list_filter_filter. apply list_filter_iff. intros d.
    intuition congruence.
Qed.

Lemma write_loop_other_blobs fuel c r seg start out c' blobID :
  blobID ≠ ID seg →
  write_loop fuel c r seg start = Some (out, c') →
  blob blobID (docs c') = blob blobID (docs c).
Proof.
  intros Hne. revert c r seg start Hne.
  induction fuel as [|fuel IH]; intros c r seg start Hne; [done|].
  cbn [write_loop].
  destruct (ReadAtLeast r (Data seg) (len (Data seg))) as [[[n err] buf] r1].
  assert (∀ payload,
    match
      roundtrip (ReplaceOne (ID seg) (Seq seg)
        (mkSegment (ID seg) (Seq seg) payload start (uint64 (len payload)))) c
    with
    | (Some e1, c1) => Some (Some e1, c1)
    | (None, c1) =>
        write_loop fuel c1 r1
          (mkSegment (ID seg) (uint64 (Seq seg + 1)) payload start
             (uint64 (len payload)))
          (uint64 (start + uint64 (len payload)))
    end = Some (out, c') →
    blob blobID (docs c') = blob blobID (docs c)) as Hpersist.
  { intros payload.
    pose proof (roundtrip_other_blob (ReplaceOne (ID seg) (Seq seg)
      (mkSegment (ID seg) (Seq seg) payload start (uint64 (len payload))))
      c blobID ltac:(split; [congruence|done])) as Hframe.
    destruct (roundtrip _ c) as [[e1|] c1]; cbn [snd] in Hframe.
    - by intros [= <- <-].
    - intros Hloop%IH; [|done]. by rewrite Hloop. }
  destruct (errors_Is err ErrUnexpectedEOF); [by apply Hpersist|].
  destruct (errors_Is err EOF);
    [|destruct err as [e|]; [by intros [= <- <-]|by apply Hpersist]].
  intros [= Hrt].
  pose proof (roundtrip_other_blob (DeleteGte (ID seg) (Seq seg)) c blobID
    ltac:(cbn; congruence)) as Hframe.
  by rewrite Hrt in Hframe.
Qed.

(** X6: a call changes the documents of no blob but its own: a [Write],
    whatever its stream and however it ends, leaves the documents of every
    other blob as they were and in their order; so does [Remove] for the
    blobs it is not given; [EnsureIndex], [Read] and [Size] change no
    document at all. *)
Theorem call_isolation op store out store' blobID :
  ¬ touches op blobID →
  run_call op store = Some (out, store') →
  blob blobID (docs (Collection store')) = blob blobID (docs (Collection store)).
Proof.
  intros Hop.
  destruct op as [|blobIDs|fuel blobID' [r|]|blobID'|blobID'];
    cbn [run_call touches] in *.
  - unfold EnsureIndex. destruct (index store); [by intros [= _ <-]|].
    pose proof (roundtrip_other_blob CreateIndex (Collection store) blobID I).
    destruct (roundtrip _ _) as [err c]. by intros [= _ <-].
  - unfold Remove. destruct blobIDs as [|i ids]; [by intros [= _ <-]|].
    pose proof (roundtrip_other_blob (DeleteIn (i :: ids)) (Collection store)
      blobID Hop).
    destruct (roundtrip _ _) as [err c]. by intros [= _ <-].
  - unfold Write.
    destruct (write_loop _ _ _ _ _) as [[err c]|] eqn:Hloop; [|done].
    intros [= _ <-]. apply write_loop_other_blobs with (blobID := blobID)
      in Hloop; [done|]. cbn. congruence.
  - by intros [= _ <-].
  - pose proof (Read_docs store blobID') as Hd.
    destruct (Read store blobID') as [[rd err] st]. intros [= _ <-].
    cbn in Hd. by rewrite Hd.
  - pose proof (Size_docs store blobID') as Hd.
    destruct (Size store blobID') as [[n err] st]. intros [= _ <-].
    cbn in Hd. by rewrite Hd.
Qed.

Lemma call_isolation_witness :
  blob "1" (docs (Collection
    (mkStore
       (mkCollection
          (docs (Collection abcde_store) ++ [mkSegment "2" 0 [x7a] 0 1])
          [ReplaceOne "2" 0 (mkSegment "2" 0 [x7a] 0 1); DeleteGte "2" 1]
          []) 2 false))) =
  blob "1" (docs (Collection abcde_store)).
Proof.
  apply (call_isolation (CallWrite 10 "2" (NewReader [x7a]))
    (mkStore (mkCollection (docs (Collection abcde_store)) [] []) 2 false)
    (Returned None)).
  - cbn. discriminate.
  - vm_compute. reflexivity.
Defined.

(** ** Rows and the order of storage *)

Lemma seq_sorted_reverse rows :
  StronglySorted seq_le rows → StronglySorted seq_ge (reverse rows).
Proof.
  induction 1 as [|s rows Hsorted IH Hall]; [constructor|].
  rewrite reverse_cons. apply StronglySorted_app. split_and!.
  - intros s' x Hs' ->%list_elem_of_singleton.
    rewrite elem_of_reverse in Hs'. by eapply Forall_forall in Hall.
  - done.
  - repeat constructor.
Qed.

Lemma find_rows_permutation blobID ascending ds1 ds2 :
  NoDup (key <$> ds1) → ds1 ≡ₚ ds2 →
  find_rows blobID ascending ds1 = find_rows blobID ascending ds2.
Proof.
  intros Hnd Hperm.
  assert (find_rows blobID ascending ds1 ≡ₚ find_rows blobID ascending ds2)
    as Hrows.
  { unfold find_rows, blob.
    destruct ascending; by rewrite !merge_sort_Permutation, Hperm. }
  assert (∀ x1 x2, x1 ∈ find_rows blobID ascending ds1 →
    x2 ∈ find_rows blobID ascending ds2 → Seq x1 = Seq x2 → x1 = x2) as Hsame.
  { intros x1 x2 H1 H2. rewrite <-Hrows in H2.
    apply find_rows_elem in H1, H2. by apply (blob_same_seq blobID ds1). }
  destruct ascending.
  - apply (StronglySorted_unique_strong seq_le);
      [|apply find_rows_sorted..|done].
    intros x1 x2 H1 H2 Hle Hge. apply Hsame; [done..|].
    unfold seq_le in *. lia.
  - apply (StronglySorted_unique_strong seq_ge);
      [|apply find_rows_sorted..|done].
    intros x1 x2 H1 H2 Hle Hge. apply Hsame; [done..|].
    unfold seq_ge in *. lia.
Qed.

Lemma find_rows_descending blobID ds :
  NoDup (key <$> ds) →
  find_rows blobID false ds = reverse (find_rows blobID true ds).
Proof.
  intros Hnd. apply (StronglySorted_unique_strong seq_ge).
  - intros x1 x2 H1 H2 Hle Hge. rewrite elem_of_reverse in H2.
    apply find_rows_elem in H1, H2. apply (blob_same_seq blobID ds); [done..|].
    unfold seq_ge in *. lia.
  - apply find_rows_sorted.
  - apply seq_sorted_reverse, find_rows_sorted.
  - unfold find_rows. by rewrite reverse_Permutation, !merge_sort_Permutation.
Qed.

(** X7: what [Read] and [Size] return does not depend on the order in
    which the collection holds its documents: two collections with the
    same documents and the unique index respected give the same stream,
    the same size and the same errors. *)
Theorem read_ignores_storage_order store1 store2 blobID :
  NoDup (key <$> docs (Collection store1)) →
  docs (Collection store1) ≡ₚ docs (Collection store2) →
  faults (Collection store1) = faults (Collection store2) →
  (Read store1 blobID).1 = (Read store2 blobID).1 ∧
  (Size store1 blobID).1 = (Size store2 blobID).1.
Proof.
  intros Hnd Hperm Hfaults. unfold Read, Size, roundtrip. rewrite <-Hfaults.
  destruct (faults (Collection store1)) as [|[msg|] fs];
    cbn -[find_rows]; try done;
    rewrite <-!(find_rows_permutation blobID _ _ _ Hnd Hperm);
    by destruct (find_rows blobID true _), (find_rows blobID false _).
Qed.

Lemma read_ignores_storage_order_witness :
  (Read abcde_store "1").1 =
    (Read (mkStore (mkCollection (reverse (docs (Collection abcde_store))) [] [])
             2 false) "1").1 ∧
  (Size abcde_store "1").1 =
    (Size (mkStore (mkCollection (reverse (docs (Collection abcde_store))) [] [])
             2 false) "1").1.
Proof.
  apply (read_ignores_storage_order abcde_store
    (mkStore (mkCollection (reverse (docs (Collection abcde_store))) [] [])
       2 false) "1").
  - apply (bool_decide_unpack _). by vm_compute.
  - cbn [Collection docs]. by rewrite reverse_Permutation.
  - reflexivity.
Defined.

(** ** Size and the bytes read *)

Lemma contiguous_from_last start rows s :
  contiguous_from start rows → last rows = Some s →
  Start s + N s = start + len (concat (Data <$> rows)).
Proof.
  revert start. induction rows as [|a rows IH]; intros start Hrows Hlast;
    [done|].
  destruct Hrows as (Hstart & Hn & _ & Hrest).
  rewrite fmap_cons. cbn [concat]. unfold len in *. rewrite length_app.
  destruct rows as [|a' rows].
  - injection Hlast as <-. cbn. lia.
  - rewrite last_cons_cons in Hlast. rewrite (IH _ Hrest Hlast). lia.
Qed.

(** X8: for a blob whose rows are laid out back to back from offset 0,
    [Size] returns the number of bytes [Read] delivers, though it looks at
    the last row only. *)
Theorem size_agrees_with_read store blobID :
  wf_docs (docs (Collection store)) → healthy (Collection store) →
  let rows := find_rows blobID true (docs (Collection store)) in
  rows ≠ [] → contiguous_from 0 rows →
  len (concat (Data <$> rows)) ≤ MaxInt64 →
  ∃ rd store1 store2,
    Read store blobID = (Some rd, None, store1) ∧
    Size store blobID = (len (ReadAll rd), None, store2).
Proof.
  intros [Hnd _] Hc rows Hrows Hlayout Hfits.
  rewrite Read_healthy, Size_healthy by done. cbv zeta.
  rewrite find_rows_descending by done. fold rows.
  destruct rows as [|s rest] eqn:Heq; [done|]. rewrite <-Heq in *.
  destruct (reverse rows) as [|l rows'] eqn:Hrev.
  { apply (f_equal reverse) in Hrev. rewrite reverse_involutive in Hrev.
    by rewrite Hrev in Heq. }
  assert (last rows = Some l) as Hlast by (by rewrite <-head_reverse, Hrev).
  pose proof (contiguous_from_last 0 rows l Hlayout Hlast) as Hsum.
  do 3 eexists. split; [by rewrite Heq|].
  unfold ReadAll. rewrite <-Heq.
  assert (0 ≤ len (concat (Data <$> rows))) by (unfold len; lia).
  unfold MaxInt64 in Hfits.
  rewrite Hsum, uint64_small, int64_small by (unfold MaxInt64; lia). done.
Qed.

Lemma size_agrees_with_read_witness :
  ∃ rd store1 store2,
    Read abcde_store "1" = (Some rd, None, store1) ∧
    Size abcde_store "1" = (len (ReadAll rd), None, store2).
Proof.
  apply (size_agrees_with_read abcde_store "1").
  - unfold wf_docs. apply (bool_decide_unpack _). by vm_compute.
  - reflexivity.
  - by vm_compute.
  - vm_compute. by repeat split.
  - by vm_compute.
Defined.

(** ** Where the bytes of a blob are stored *)

Lemma segments_from_lookup blobID chunk fuel seq start b i s :
  (0 < chunk)%nat → (length b ≤ fuel)%nat →
  segments_from fuel blobID seq start chunk b !! i = Some s →
  Seq s = seq + Z.of_nat i ∧
  Start s = start + Z.of_nat i * Z.of_nat chunk ∧
  Data s = take chunk (drop (i * chunk) b) ∧
  N s = len (Data s).
Proof.
  intros Hchunk. revert seq start b i.
  induction fuel as [|fuel IH]; intros seq start b i Hfuel;
    [by destruct b|].
  destruct b as [|x b']; [by rewrite segments_from_nil|].
  set (b := x :: b') in *. cbn [segments_from]. fold b.
  destruct i as [|i].
  - intros [= <-]. cbn. split_and!; try done; lia.
  - cbn [lookup list_lookup]. intros Hi.
    assert (chunk ≤ length b)%nat as Hfull.
    { destruct (decide (chunk ≤ length b)%nat); [done|].
      rewrite drop_ge in Hi by lia. by rewrite segments_from_nil in Hi. }
    apply IH in Hi as (Hseq & Hstart & Hdata & Hn).
    + split_and!; [lia| | |done].
      * rewrite Hstart. unfold len. rewrite length_take. lia.
      * by rewrite Hdata, drop_drop.
    + rewrite length_drop. unfold b in *. simpl in *. lia.
Qed.

Lemma segments_count blobID chunk b :
  0 < chunk →
  len (segments blobID chunk b) =
    len b / chunk + (if decide (len b mod chunk = 0) then 0 else 1).
Proof.
  intros Hchunk. unfold segments.
  pose proof (Z.div_mod (len b) chunk ltac:(lia)) as Hdm.
  pose proof (Z.mod_pos_bound (len b) chunk Hchunk) as Hmod.
  assert (0 ≤ len b / chunk) by (apply Z.div_pos; unfold len; lia).
  pose proof (segments_from_lengths blobID (Z.to_nat chunk) (length b) 0 0 b
    (Z.to_nat (len b / chunk)) (Z.to_nat (len b mod chunk))) as Hshape.
  apply (f_equal length) in Hshape; [|unfold len in *; nia || lia..].
  rewrite length_fmap, length_app, length_replicate in Hshape.
  unfold len at 1. rewrite Hshape.
  destruct (decide (len b mod chunk = 0)) as [Hz|Hnz].
  - rewrite decide_True by lia. simpl. lia.
  - rewrite decide_False by lia. simpl. lia.
Qed.

(** X9: after [Write] of [b] with chunk size [C], the blob has
    [len b / C] rows, and one more when [C] does not divide [len b]; row
    [i] has [seq = i], [start = i * C] and holds the bytes of [b] from
    offset [i * C], at most [C] of them.  The round trips of the write are
    the upserts of these rows in this order, then the one [DeleteMany] of
    the rows from [seq] = their number on. *)
Theorem write_layout fuel store blobID b :
  wf_docs (docs (Collection store)) → healthy (Collection store) →
  (length b < fuel)%nat → fits_slice b →
  let C := effective_chunk_size store in
  ∃ store',
    Write fuel store blobID (NewReader b) = Some (Returned None, store') ∧
    let rows := find_rows blobID true (docs (Collection store')) in
    len rows = len b / C + (if decide (len b mod C = 0) then 0 else 1) ∧
    (∀ (i : nat) s, rows !! i = Some s →
       ID s = blobID ∧ Seq s = Z.of_nat i ∧ Start s = Z.of_nat i * C ∧
       Data s = take (Z.to_nat C) (drop (i * Z.to_nat C) b) ∧
       N s = len (Data s)) ∧
    oplog (Collection store') =
      oplog (Collection store) ++ (replace_op <$> rows) ++
      [DeleteGte blobID (len rows)].
Proof.
  intros Hwf Hc Hfuel Hfits C.
  pose proof (effective_chunk_size_pos store) as Hpos. fold C in Hpos.
  unfold fits_slice, MaxInt64 in Hfits.
  eexists. split; [apply Write_bytes; [done..|lia]|].
  cbn [with_collection Collection docs oplog]. fold C.
  rewrite written_rows by (done || apply segments_run).
  split_and!; [by apply segments_count| |done].
  intros i s Hi. destruct (segments_run blobID C b i s Hi) as [Hid _].
  apply segments_from_lookup in Hi as (Hseq & Hstart & Hdata & Hn); [|lia..].
  split_and!; [done|lia|lia|done..].
Qed.

Lemma write_layout_witness :
  ∃ store',
    Write 10 (newStore 2) "1" (NewReader abcde) = Some (Returned None, store') ∧
    let rows := find_rows "1" true (docs (Collection store')) in
    len rows = len abcde / 2 + (if decide (len abcde mod 2 = 0) then 0 else 1) ∧
    (∀ (i : nat) s, rows !! i = Some s →
       ID s = "1" ∧ Seq s = Z.of_nat i ∧ Start s = Z.of_nat i * 2 ∧
       Data s = take (Z.to_nat 2) (drop (i * Z.to_nat 2) abcde) ∧
       N s = len (Data s)) ∧
    oplog (Collection store') =
      oplog (Collection (newStore 2)) ++ (replace_op <$> rows) ++
      [DeleteGte "1" (len rows)].
Proof.
  apply (write_layout 10 (newStore 2) "1" abcde).
  - split; constructor.
  - reflexivity.
  - simpl. lia.
  - by vm_compute.
Defined.

(** ** A failed [EnsureIndex] *)

(** X10: when the round trip of the first [EnsureIndex] fails, that call
    returns the error of the store, and the attempt is not repeated: every
    later [EnsureIndex] on the store returns [nil] without a round trip. *)
Theorem ensure_index_failure_not_retried store msg fs :
  index store = false →
  faults (Collection store) = Some msg :: fs →
  ∃ store1,
    EnsureIndex store = (Some (ErrOther msg), store1) ∧
    docs (Collection store1) = docs (Collection store) ∧
    oplog (Collection store1) = oplog (Collection store) ++ [CreateIndex] ∧
    faults (Collection store1) = fs ∧
    ∀ n, EnsureIndex (EnsureIndex_times n store1) = (None, store1).
Proof.
  intros Hindex Hfaults. eexists. unfold EnsureIndex at 1, roundtrip.
  rewrite Hindex, Hfaults. split_and!; [done..|].
  intros n. induction n as [|n IH]; [done|].
  change (EnsureIndex_times (S n) ?s)
    with (EnsureIndex (EnsureIndex_times n s)).2.
  by rewrite IH.
Qed.

Lemma ensure_index_failure_not_retried_witness :
  ∃ store1,
    EnsureIndex (mkStore (mkCollection [] [] [Some "offline"]) 2 false) =
      (Some (ErrOther "offline"), store1) ∧
    docs (Collection store1) = [] ∧
    oplog (Collection store1) = [] ++ [CreateIndex] ∧
    faults (Collection store1) = [] ∧
    ∀ n, EnsureIndex (EnsureIndex_times n store1) = (None, store1).
Proof.
  apply (ensure_index_failure_not_retried
    (mkStore (mkCollection [] [] [Some "offline"]) 2 false) "offline" []);
    reflexivity.
Defined.

(** ** [EnsureIndex] returns after the index was created *)

Lemma weight_lookup w ps i p : ps !! i = Some p → (w p ≤ weight w ps)%nat.
Proof.
  revert i. induction ps as [|a ps IH]; intros [|i] Hi; try done; simpl in *.
  - injection Hi as ->. lia.
  - specialize (IH i Hi). lia.
Qed.

(** No goroutine is past the body of [Do] while [done] is unset. *)
Lemma step_past_body i st :
  (onceDone st = false → weight past_body (goroutines st) = 0%nat) →
  onceDone (step i st) = false →
  weight past_body (goroutines (step i st)) = 0%nat.
Proof.
  intros Hinv. unfold step.
  destruct (goroutines st !! i) as [p|] eqn:Hi; [|done].
  pose proof (λ q, weight_insert past_body (goroutines st) i p q Hi) as Hq.
  destruct p, (onceDone st) eqn:Hd, (mutexLocked st) eqn:Hl;
    cbn [at_pc onceDone mutexLocked creations goroutines];
    rewrite ?Hd; try done; intros _; specialize (Hinv eq_refl);
    match goal with
    | |- context [<[i:=?q]> _] => specialize (Hq q)
    | _ => idtac
    end;
    cbn [past_body] in *; lia.
Qed.

Lemma run_schedule_past_body schedule st :
  (onceDone st = false → weight past_body (goroutines st) = 0%nat) →
  onceDone (run_schedule schedule st) = false →
  weight past_body (goroutines (run_schedule schedule st)) = 0%nat.
Proof.
  revert st. induction schedule as [|i schedule IH]; intros st Hst; [done|].
  apply IH. by apply step_past_body.
Qed.

(** X11: under every interleaving, a goroutine whose call of [EnsureIndex]
    has returned finds the creation of the index behind it: the one
    [CreateOne] round trip was begun and has come back, by this goroutine
    or by another. *)
Theorem ensure_index_returns_after_creation n schedule i :
  let st := run_schedule schedule (start n) in
  goroutines st !! i = Some Finished →
  onceDone st = true ∧ creations st = 1%nat ∧
  weight in_body (goroutines st) = 0%nat.
Proof.
  intros st Hi.
  destruct (run_schedule_invariant schedule (start n) (start_invariant n))
    as (_ & Hcount & Hdone). fold st in Hcount, Hdone.
  assert (onceDone st = true) as Hd.
  { destruct (onceDone st) eqn:Hd; [done|]. exfalso.
    assert (weight past_body (goroutines st) = 0%nat) as Hzero.
    { apply (run_schedule_past_body schedule (start n)); [|done].
      intros _. by apply weight_replicate. }
    apply (weight_lookup past_body) in Hi. cbn [past_body] in Hi. lia. }
  specialize (Hdone Hd). rewrite Hd, Hdone in Hcount. by split_and!.
Qed.

Lemma ensure_index_returns_after_creation_witness :
  let st := run_schedule [0; 1; 0; 1; 0; 2; 0; 0; 1; 0]%nat (start 3) in
  onceDone st = true ∧ creations st = 1%nat ∧
  weight in_body (goroutines st) = 0%nat.
Proof.
  apply (ensure_index_returns_after_creation 3
    [0; 1; 0; 1; 0; 2; 0; 0; 1; 0]%nat 0).
  reflexivity.
Defined.

(** ** Writing again after a failure *)

(** X12: a [Write] that failed, by its stream or by the store and after
    whatever part of its work, is repaired by writing again: once the store
    answers, a completed [Write] of [b] to the same blob leaves exactly the
    segments of [b], and [Read] delivers [b]. *)
Theorem write_retry_recovers fuel0 fuel store blobID data0 out store1 b :
  wf_docs (docs (Collection store)) →
  Write fuel0 store blobID data0 = Some (out, store1) →
  healthy (Collection store1) →
  (length b < fuel)%nat → fits_slice b → b ≠ [] →
  ∃ store2 rd store3,
    Write fuel store1 blobID (NewReader b) = Some (Returned None, store2) ∧
    find_rows blobID true (docs (Collection store2)) =
      segments blobID (effective_chunk_size store) b ∧
    Read store2 blobID = (Some rd, None, store3) ∧ ReadAll rd = b.
Proof.
  intros Hwf Hfirst Hc Hfuel Hfits Hb.
  assert (wf_docs (docs (Collection store1)) ∧
    ChunkSize store1 = ChunkSize store) as [Hwf1 Hchunk].
  { unfold Write in Hfirst. destruct data0 as [r|];
      [|by injection Hfirst as _ <-].
    destruct (write_loop _ _ _ _ _) as [[err c]|] eqn:Hloop; [|done].
    injection Hfirst as _ <-. split; [|done].
    by apply write_loop_frame in Hloop as [? _]. }
  destruct (Write_bytes_rows fuel store1 blobID b)
    as (store2 & Hw & _ & Hc2 & _ & Hrows & _); [done..| |].
  { unfold fits_slice, MaxInt64 in Hfits. lia. }
  assert (effective_chunk_size store1 = effective_chunk_size store) as Heff
    by (unfold effective_chunk_size; by rewrite Hchunk).
  rewrite Heff in Hrows.
  destruct (Read_segments store2 blobID _ b
    (effective_chunk_size_pos store) Hc2 Hrows) as [store3 Hread].
  destruct b as [|x b]; [done|]. destruct Hread as (rd & Hread & Hall).
  by exists store2, rd, store3.
Qed.

Lemma write_retry_recovers_witness :
  ∃ store2 rd store3,
    Write 10
      (mkStore
         (mkCollection
            [mkSegment "1" 0 [x61; x62] 0 2; mkSegment "1" 1 [x63; x64] 2 2]
            [ReplaceOne "1" 0 (mkSegment "1" 0 [x61; x62] 0 2);
             ReplaceOne "1" 1 (mkSegment "1" 1 [x63; x64] 2 2);
             ReplaceOne "1" 2 (mkSegment "1" 2 [x65] 4 1)]
            []) 2 false)
      "1" (NewReader abcde) = Some (Returned None, store2) ∧
    find_rows "1" true (docs (Collection store2)) =
      segments "1" (effective_chunk_size failing_third) abcde ∧
    Read store2 "1" = (Some rd, None, store3) ∧ ReadAll rd = abcde.
Proof.
  apply (write_retry_recovers 10 10 failing_third "1" (NewReader abcde)
    (Returned (Some (ErrOther "offline")))).
  - split; constructor.
  - vm_compute. reflexivity.
  - reflexivity.
  - simpl. lia.
  - by vm_compute.
  - done.
Defined.

(** ** The unique index, every store and every segment *)

Lemma write_payloads_witness :
  ∃ ops,
    oplog (Collection abcde_store) = oplog (Collection (newStore 2)) ++ ops ∧
    Forall (carries_payload (effective_chunk_size (newStore 2))) ops.
Proof.
  apply (write_payloads 10 (newStore 2) "1" (mkReader abcde EOF)
    (Returned None) abcde_store).
  - reflexivity.
  - by vm_compute.
  - vm_compute. reflexivity.
Defined.


(** ** The test of the package *)

(** X15: [TestBlob] reports nothing, whatever 5005 bytes it draws and
    whatever the collection holds when it starts, provided the collection
    respects the unique index and the store answers. *)
Theorem TestBlob_passes fuel c data :
  wf_docs (docs c) → healthy c →
  len data = 5005 → (length data < fuel)%nat →
  TestBlob fuel c data = Some (Returned []).
Proof.
  intros Hwf Hc Hlen Hfuel. unfold TestBlob, EnsureIndex. cbn [index].
  rewrite roundtrip_healthy by done. cbn [expect_nil app Collection ChunkSize].
  set (store0 := mkStore _ 1024 true).
  assert (fits_slice data) as Hfits
    by (unfold fits_slice, MaxInt64; rewrite Hlen; lia).
  destruct (Write_bytes_rows fuel store0 "1" data)
    as (store1 & -> & _ & Hc1 & Hwf1 & Hrows & Hdesc & _); [done..| |].
  { rewrite Hlen. lia. }
  pose proof (effective_chunk_size_pos store0) as Hpos.
  assert (data ≠ []) as Hdata by (intros ->; done).
  rewrite Read_healthy by done. cbv zeta. rewrite Hrows.
  destruct (segments "1" (effective_chunk_size store0) data)
    as [|s rest] eqn:Hsegs; [by apply segments_nil_iff in Hsegs|].
  set (store2 := with_collection store1 _).
  assert (ReadAll (Data <$> s :: rest) = data) as Hall
    by (rewrite <-Hsegs; by apply segments_concat).
  cbn [expect_nil app]. fold (Data <$> rest).
  change (Data s :: (Data <$> rest)) with (Data <$> s :: rest).
  rewrite Hall, decide_True by done. cbn [app].
  rewrite Size_healthy by done. cbv zeta.
  change (docs (Collection store2)) with (docs (Collection store1)).
  rewrite Hdesc.
  destruct (reverse (s :: rest)) as [|l rows'] eqn:Hrev.
  { apply (f_equal reverse) in Hrev. by rewrite reverse_involutive in Hrev. }
  assert (last (segments "1" (effective_chunk_size store0) data) = Some l)
    as Hlast by (by rewrite Hsegs, <-head_reverse, Hrev).
  apply segments_last in Hlast; [|done].
  rewrite Hlast, Hlen. cbn [expect_nil app].
  rewrite decide_True by done. cbn [app].
  set (store3 := with_collection store2 _).
  unfold Remove. rewrite roundtrip_healthy by done.
  rewrite Read_healthy by done. cbv zeta.
  cbn [with_collection Collection docs]. rewrite find_rows_DeleteIn.
  rewrite decide_True by (by left). done.
Qed.

Lemma TestBlob_passes_witness :
  TestBlob (Z.to_nat 5006) emptyCollection (replicate (Z.to_nat 5005) x00) =
    Some (Returned []).
Proof.
  apply (TestBlob_passes (Z.to_nat 5006) emptyCollection
    (replicate (Z.to_nat 5005) x00)).
  - split; constructor.
  - reflexivity.
  - unfold len. rewrite length_replicate. lia.
  - rewrite length_replicate. lia.
Defined.
